(** * inverseschema: the PostgreSQL catalog extraction, embedded and verified

    A shallow embedding of [types.go], [postgres.go] and the schema
    orchestrator ([Schema.ParseContext]).  The database driver is outside
    the package: a catalog query is modelled by what it hands back to the
    code, that is either a query error or the rows that [rows.Next] /
    [rows.Scan] deliver, each of which decodes or fails to decode.
    A SQL NULL scanned into a Go pointer is [None]; dereferencing it is the
    run-time panic of Go, which the embedding keeps apart from a returned
    [error]. *)

From stdpp Require Import gmap strings list fin_maps sorting.
From Stdlib Require Import ZArith.

Local Open Scope string_scope.
Local Open Scope Z_scope.
Local Open Scope list_scope.

(** ** Go values *)

(** A Go [error] value; the ones created here come from [fmt.Errorf], the
    others from the driver. *)
Inductive error : Type :=
| errorString (msg : string).

Global Instance error_eq_dec : EqDecision error.
Proof. solve_decision. Defined.

(** What a call does: it returns, or the goroutine panics (nil dereference). *)
Inductive outcome (A : Type) : Type :=
| Returned (a : A)
| Panicked.
Arguments Returned {A} a.
Arguments Panicked {A}.

Global Instance outcome_ret : MRet outcome := λ A a, Returned a.
Global Instance outcome_bind : MBind outcome := λ A B f m,
  match m with
  | Returned a => f a
  | Panicked => Panicked
  end.

(** [*p] for a pointer filled by [rows.Scan]: nil when the column was NULL. *)
Definition deref {A : Type} (p : option A) : outcome A :=
  match p with
  | Some a => Returned a
  | None => Panicked
  end.

(** One step of [for rows.Next() { if err := rows.Scan(...) ... }]. *)
Inductive scan (R : Type) : Type :=
| Scanned (r : R)
| ScanFailed (e : error).
Arguments Scanned {R} r.
Arguments ScanFailed {R} e.

(** [db.QueryContext]: an error (also on cancellation), or a row cursor. *)
Inductive query (R : Type) : Type :=
| QueryFailed (e : error)
| Rows (rs : list (scan R)).
Arguments QueryFailed {R} e.
Arguments Rows {R} rs.

(** ** types.go *)

Inductive ConstraintType : Type :=
| ConstraintTypeCheck
| ConstraintTypeForeignKey
| ConstraintTypePrimaryKey
| ConstraintTypeUnique
| ConstraintTypeTrigger
| ConstraintTypeExclusion.

Global Instance ConstraintType_eq_dec : EqDecision ConstraintType.
Proof. solve_decision. Defined.

(** The integer behind each constant ([iota + 1]). *)
Definition ConstraintType_value (t : ConstraintType) : Z :=
  match t with
  | ConstraintTypeCheck => 1
  | ConstraintTypeForeignKey => 2
  | ConstraintTypePrimaryKey => 3
  | ConstraintTypeUnique => 4
  | ConstraintTypeTrigger => 5
  | ConstraintTypeExclusion => 6
  end.

Inductive Datatype : Type :=
| DatatypeUnknown
| DatatypeUserdefined
| DatatypeArray
| DatatypeBigint
| DatatypeInt
| DatatypeSmallint
| DatatypeDecimal
| DatatypeNumeric
| DatatypeVariableNumeric
| DatatypeJsonb
| DatatypeJson
| DatatypeText
| DatatypeVarchar
| DatatypeBoolean
| DatatypeDate
| DatatypeTimestamp
| DatatypeTimestampz
| DatatypeUuid.

Global Instance Datatype_eq_dec : EqDecision Datatype.
Proof. solve_decision. Defined.

Module Constraint.
Record t : Type := mk {
  Name : string;
  Type_ : ConstraintType;
  Tablename : string;
  Columnname : string;
  ForeignTablename : string;
  ForeignColumnname : string
}.
End Constraint.

Global Instance Constraint_eq_dec : EqDecision Constraint.t.
Proof. solve_decision. Defined.

Module UserDefinedType.
Record t : Type := mk {
  Name : string;
  Schema : string
}.
End UserDefinedType.

Global Instance UserDefinedType_eq_dec : EqDecision UserDefinedType.t.
Proof. solve_decision. Defined.

Module Column.
Record t : Type := mk {
  OrdinalPosition : Z;
  Name : string;
  Constraints : list Constraint.t;
  IsReference : bool;
  ForeignTablename : string;
  ForeignColumnname : string;
  IsPrimary : bool;
  IsUnique : bool;
  HasDefault : bool;
  Default : string;
  IsNullable : bool;
  DatatypeRaw : string;
  Datatype_ : Datatype;
  IsUserDefined : bool;
  IsArray : bool;
  CharacterMaxLength : Z;
  UserDefinedType_ : option UserDefinedType.t;
  Comments : string
}.

(** The literal [Column{OrdinalPosition: o, Name: n, DatatypeRaw: raw}]:
    every other field has Go's zero value. *)
Definition literal (o : Z) (n raw : string) : t :=
  mk o n [] false "" "" false false false "" false raw DatatypeUnknown
     false false 0 None "".

(** Field assignments [col.F = v]. *)
Definition set_Constraints (v : list Constraint.t) (c : t) : t :=
  mk (OrdinalPosition c) (Name c) v (IsReference c) (ForeignTablename c)
     (ForeignColumnname c) (IsPrimary c) (IsUnique c) (HasDefault c)
     (Default c) (IsNullable c) (DatatypeRaw c) (Datatype_ c)
     (IsUserDefined c) (IsArray c) (CharacterMaxLength c)
     (UserDefinedType_ c) (Comments c).
Definition set_IsReference (v : bool) (c : t) : t :=
  mk (OrdinalPosition c) (Name c) (Constraints c) v (ForeignTablename c)
     (ForeignColumnname c) (IsPrimary c) (IsUnique c) (HasDefault c)
     (Default c) (IsNullable c) (DatatypeRaw c) (Datatype_ c)
     (IsUserDefined c) (IsArray c) (CharacterMaxLength c)
     (UserDefinedType_ c) (Comments c).
Definition set_ForeignTablename (v : string) (c : t) : t :=
  mk (OrdinalPosition c) (Name c) (Constraints c) (IsReference c) v
     (ForeignColumnname c) (IsPrimary c) (IsUnique c) (HasDefault c)
     (Default c) (IsNullable c) (DatatypeRaw c) (Datatype_ c)
     (IsUserDefined c) (IsArray c) (CharacterMaxLength c)
     (UserDefinedType_ c) (Comments c).
Definition set_ForeignColumnname (v : string) (c : t) : t :=
  mk (OrdinalPosition c) (Name c) (Constraints c) (IsReference c)
     (ForeignTablename c) v (IsPrimary c) (IsUnique c) (HasDefault c)
     (Default c) (IsNullable c) (DatatypeRaw c) (Datatype_ c)
     (IsUserDefined c) (IsArray c) (CharacterMaxLength c)
     (UserDefinedType_ c) (Comments c).
Definition set_IsPrimary (v : bool) (c : t) : t :=
  mk (OrdinalPosition c) (Name c) (Constraints c) (IsReference c)
     (ForeignTablename c) (ForeignColumnname c) v (IsUnique c)
     (HasDefault c) (Default c) (IsNullable c) (DatatypeRaw c)
     (Datatype_ c) (IsUserDefined c) (IsArray c) (CharacterMaxLength c)
     (UserDefinedType_ c) (Comments c).
Definition set_IsUnique (v : bool) (c : t) : t :=
  mk (OrdinalPosition c) (Name c) (Constraints c) (IsReference c)
     (ForeignTablename c) (ForeignColumnname c) (IsPrimary c) v
     (HasDefault c) (Default c) (IsNullable c) (DatatypeRaw c)
     (Datatype_ c) (IsUserDefined c) (IsArray c) (CharacterMaxLength c)
     (UserDefinedType_ c) (Comments c).
Definition set_HasDefault (v : bool) (c : t) : t :=
  mk (OrdinalPosition c) (Name c) (Constraints c) (IsReference c)
     (ForeignTablename c) (ForeignColumnname c) (IsPrimary c) (IsUnique c)
     v (Default c) (IsNullable c) (DatatypeRaw c) (Datatype_ c)
     (IsUserDefined c) (IsArray c) (CharacterMaxLength c)
     (UserDefinedType_ c) (Comments c).
Definition set_Default (v : string) (c : t) : t :=
  mk (OrdinalPosition c) (Name c) (Constraints c) (IsReference c)
     (ForeignTablename c) (ForeignColumnname c) (IsPrimary c) (IsUnique c)
     (HasDefault c) v (IsNullable c) (DatatypeRaw c) (Datatype_ c)
     (IsUserDefined c) (IsArray c) (CharacterMaxLength c)
     (UserDefinedType_ c) (Comments c).
Definition set_IsNullable (v : bool) (c : t) : t :=
  mk (OrdinalPosition c) (Name c) (Constraints c) (IsReference c)
     (ForeignTablename c) (ForeignColumnname c) (IsPrimary c) (IsUnique c)
     (HasDefault c) (Default c) v (DatatypeRaw c) (Datatype_ c)
     (IsUserDefined c) (IsArray c) (CharacterMaxLength c)
     (UserDefinedType_ c) (Comments c).
Definition set_Datatype (v : Datatype) (c : t) : t :=
  mk (OrdinalPosition c) (Name c) (Constraints c) (IsReference c)
     (ForeignTablename c) (ForeignColumnname c) (IsPrimary c) (IsUnique c)
     (HasDefault c) (Default c) (IsNullable c) (DatatypeRaw c) v
     (IsUserDefined c) (IsArray c) (CharacterMaxLength c)
     (UserDefinedType_ c) (Comments c).
Definition set_IsUserDefined (v : bool) (c : t) : t :=
  mk (OrdinalPosition c) (Name c) (Constraints c) (IsReference c)
     (ForeignTablename c) (ForeignColumnname c) (IsPrimary c) (IsUnique c)
     (HasDefault c) (Default c) (IsNullable c) (DatatypeRaw c)
     (Datatype_ c) v (IsArray c) (CharacterMaxLength c)
     (UserDefinedType_ c) (Comments c).
Definition set_IsArray (v : bool) (c : t) : t :=
  mk (OrdinalPosition c) (Name c) (Constraints c) (IsReference c)
     (ForeignTablename c) (ForeignColumnname c) (IsPrimary c) (IsUnique c)
     (HasDefault c) (Default c) (IsNullable c) (DatatypeRaw c)
     (Datatype_ c) (IsUserDefined c) v (CharacterMaxLength c)
     (UserDefinedType_ c) (Comments c).
Definition set_CharacterMaxLength (v : Z) (c : t) : t :=
  mk (OrdinalPosition c) (Name c) (Constraints c) (IsReference c)
     (ForeignTablename c) (ForeignColumnname c) (IsPrimary c) (IsUnique c)
     (HasDefault c) (Default c) (IsNullable c) (DatatypeRaw c)
     (Datatype_ c) (IsUserDefined c) (IsArray c) v
     (UserDefinedType_ c) (Comments c).
Definition set_UserDefinedType (v : option UserDefinedType.t) (c : t) : t :=
  mk (OrdinalPosition c) (Name c) (Constraints c) (IsReference c)
     (ForeignTablename c) (ForeignColumnname c) (IsPrimary c) (IsUnique c)
     (HasDefault c) (Default c) (IsNullable c) (DatatypeRaw c)
     (Datatype_ c) (IsUserDefined c) (IsArray c) (CharacterMaxLength c)
     v (Comments c).
Definition set_Comments (v : string) (c : t) : t :=
  mk (OrdinalPosition c) (Name c) (Constraints c) (IsReference c)
     (ForeignTablename c) (ForeignColumnname c) (IsPrimary c) (IsUnique c)
     (HasDefault c) (Default c) (IsNullable c) (DatatypeRaw c)
     (Datatype_ c) (IsUserDefined c) (IsArray c) (CharacterMaxLength c)
     (UserDefinedType_ c) v.
End Column.

Global Instance Column_eq_dec : EqDecision Column.t.
Proof. solve_decision. Defined.

Module Table.
Record t : Type := mk {
  Name : string;
  Columns : list Column.t;
  ColumnsByName : gmap string Column.t
}.

Definition set_Columns (v : list Column.t) (tb : t) : t :=
  mk (Name tb) v (ColumnsByName tb).
Definition set_ColumnsByName (v : gmap string Column.t) (tb : t) : t :=
  mk (Name tb) (Columns tb) v.
End Table.

Module EnumValue.
Record t : Type := mk {
  Label : string;
  Order : Z
}.
End EnumValue.

Global Instance EnumValue_eq_dec : EqDecision EnumValue.t.
Proof. solve_decision. Defined.

Module Enum.
Record t : Type := mk {
  Name : string;
  Values : list EnumValue.t
}.
End Enum.

Global Instance Enum_eq_dec : EqDecision Enum.t.
Proof. solve_decision. Defined.

(** The [Adapter] interface.  A method call may touch the world [W] behind
    the adapter (connection, logs); it hands back Go's pair of results. *)
Module Adapter.
Class t (W : Type) : Type := mk {
  Tables : W → W * outcome (list Table.t * option error);
  Enums : W → W * outcome (list Enum.t * option error)
}.
End Adapter.

(** ** What the Go runtime leaves open

    [range] over a map visits the entries in an unspecified order, and
    [sort.Slice] is not stable.  The code is embedded over any runtime that
    keeps the documented contracts. *)

Record StrictWeakOrder {A : Type} (less : A → A → bool) : Prop := {
  swo_irrefl : ∀ x, less x x = false;
  swo_trans : ∀ x y z, less x y = true → less y z = true → less x z = true;
  swo_incomp : ∀ x y z, less x y = false → less y z = false → less x z = false
}.

Class GoRuntime : Type := {
  map_range : ∀ {V : Type}, gmap string V → list (string * V);
  map_range_perm : ∀ (V : Type) (m : gmap string V),
    map_range m ≡ₚ map_to_list m;
  sort_Slice : ∀ {A : Type}, (A → A → bool) → list A → list A;
  sort_Slice_perm : ∀ (A : Type) (less : A → A → bool) (l : list A),
    sort_Slice less l ≡ₚ l;
  sort_Slice_sorted : ∀ (A : Type) (less : A → A → bool),
    StrictWeakOrder less →
    ∀ l : list A, Sorted (λ x y, less y x = false) (sort_Slice less l)
}.

(** A runtime to run the code with: maps are walked in key order and slices
    are sorted by insertion, which is what [sort.Slice] does below twelve
    elements. *)
Fixpoint insert_sorted {A : Type} (less : A → A → bool) (x : A) (l : list A)
  : list A :=
  match l with
  | [] => [x]
  | y :: l' => if less x y then x :: y :: l' else y :: insert_sorted less x l'
  end.

Definition insertion_sort {A : Type} (less : A → A → bool) (l : list A)
  : list A :=
  foldl (λ acc x, insert_sorted less x acc) [] l.

(** ** postgres.go *)

(** The variables one [rows.Scan] fills, per query. *)
Module EnumRow.
Record t : Type := mk {
  name : string;
  order : Z;
  label : string
}.
End EnumRow.

Module ColumnRow.
Record t : Type := mk {
  ordinalPosition : Z;
  columnName : string;
  columnDefault : option string;
  isNullable : option string;
  datatypeRaw : string;
  elementArraytypeRaw : option string;
  elementUdtCatalog : option string;
  elementUdtSchema : option string;
  elementUdtName : option string;
  characterMaximumLength : option Z;
  numericPrecision : option Z;
  udtCatalog : option string;
  udtSchema : option string;
  udtName : option string;
  comments : option string
}.
End ColumnRow.

Module ConstraintRow.
Record t : Type := mk {
  constraintname : string;
  constrainttype : string;
  columnname : option string;
  foreignTablename : option string;
  foreignColumnname : option string
}.
End ConstraintRow.

(** [*sql.DB] as the adapter sees it: the answer to each of its four
    queries, by the query's parameters. *)
Module DB.
Record t : Type := mk {
  (** [pg_type JOIN pg_enum ... WHERE n.nspname = $1] *)
  enum_rows : string → query EnumRow.t;
  (** [SELECT tablename FROM pg_catalog.pg_tables WHERE schemaname=$1] *)
  table_rows : string → query (option string);
  (** [information_schema.columns ... WHERE table_schema=$1 AND table_name=$2] *)
  column_rows : string → string → query ColumnRow.t;
  (** [information_schema.table_constraints ... WHERE table_schema=$1 AND table_name=$2 ...] *)
  constraint_rows : string → string → query ConstraintRow.t
}.
End DB.

Definition postgresDatatypemap : gmap string Datatype :=
  list_to_map [
    ("USER-DEFINED", DatatypeUserdefined);
    ("ARRAY", DatatypeArray);
    ("boolean", DatatypeBoolean);
    ("integer", DatatypeInt);
    ("bigint", DatatypeBigint);
    ("numeric", DatatypeNumeric);
    ("text", DatatypeText);
    ("character varying", DatatypeVarchar);
    ("jsonb", DatatypeJsonb);
    ("uuid", DatatypeUuid);
    ("date", DatatypeDate);
    ("timestamp without time zone", DatatypeTimestamp);
    ("timestamp with time zone", DatatypeTimestampz)
  ].

Module PostgresAdapter.
Record t : Type := mk {
  db : DB.t;
  schemaname : string
}.

(** *** Enums *)

(** The body of [for rows.Next()] in [Enums], over the rows still to come
    and the map built so far; [inr] is the early [return nil, err]. *)
Fixpoint Enums_rows (rows : list (scan EnumRow.t))
    (enumsByName : gmap string Enum.t) : gmap string Enum.t + error :=
  match rows with
  | [] => inl enumsByName
  | ScanFailed err :: _ => inr err
  | Scanned r :: rows' =>
      let value := EnumValue.mk (EnumRow.label r) (EnumRow.order r) in
      match enumsByName !! EnumRow.name r with
      | Some enum =>
          let enum := Enum.mk (Enum.Name enum) (Enum.Values enum ++ [value]) in
          Enums_rows rows' (<[EnumRow.name r := enum]> enumsByName)
      | None =>
          Enums_rows rows'
            (<[EnumRow.name r := Enum.mk (EnumRow.name r) [value]]> enumsByName)
      end
  end.

Definition Enums `{GoRuntime} (a : t) : outcome (list Enum.t * option error) :=
  match DB.enum_rows (db a) (schemaname a) with
  | QueryFailed err => Returned ([], Some err)
  | Rows rows =>
      match Enums_rows rows ∅ with
      | inr err => Returned ([], Some err)
      | inl enumsByName => Returned ((map_range enumsByName).*2, None)
      end
  end.

(** *** parseTableColumns *)

(** One iteration of the loop of [parseTableColumns], after a successful
    [rows.Scan]: the column appended to [cols]. *)
Definition parseTableColumns_row (r : ColumnRow.t) : outcome Column.t :=
  let col := Column.literal (ColumnRow.ordinalPosition r)
               (ColumnRow.columnName r) (ColumnRow.datatypeRaw r) in
  let col := match ColumnRow.comments r with
             | Some c => Column.set_Comments c col
             | None => col
             end in
  let col := match postgresDatatypemap !! ColumnRow.datatypeRaw r with
             | Some datatype => Column.set_Datatype datatype col
             | None => Column.set_Datatype DatatypeUnknown col
             end in
  let col := match ColumnRow.characterMaximumLength r with
             | Some n => Column.set_CharacterMaxLength n col
             | None => col
             end in
  let col := match ColumnRow.isNullable r with
             | Some s => if decide (s = "YES")
                         then Column.set_IsNullable true col else col
             | None => col
             end in
  let col := match ColumnRow.columnDefault r with
             | Some d => if decide (0 < String.length d)%nat
                         then Column.set_Default d (Column.set_HasDefault true col)
                         else col
             | None => col
             end in
  col ← (if decide (Column.Datatype_ col = DatatypeUserdefined) then
           name ← deref (ColumnRow.udtName r);
           schema ← deref (ColumnRow.udtSchema r);
           mret (Column.set_UserDefinedType
                   (Some (UserDefinedType.mk name schema))
                   (Column.set_IsUserDefined true col))
         else mret col);
  (* case injection for datatype array *)
  if decide (Column.Datatype_ col = DatatypeArray) then
    let col := Column.set_IsArray true col in
    elementArraytype ← deref (ColumnRow.elementArraytypeRaw r);
    let col := match postgresDatatypemap !! elementArraytype with
               | Some elementDatatype => Column.set_Datatype elementDatatype col
               | None => Column.set_Datatype DatatypeUnknown col
               end in
    if decide (Column.Datatype_ col = DatatypeUserdefined) then
      name ← deref (ColumnRow.elementUdtName r);
      schema ← deref (ColumnRow.elementUdtSchema r);
      mret (Column.set_UserDefinedType
              (Some (UserDefinedType.mk name schema))
              (Column.set_IsUserDefined true col))
    else mret col
  else mret col.

(** The loop, with [cols] the slice appended to so far. *)
Fixpoint parseTableColumns_rows (rows : list (scan ColumnRow.t))
    (cols : list Column.t) : outcome (list Column.t * option error) :=
  match rows with
  | [] => Returned (cols, None)
  | ScanFailed err :: _ => Returned ([], Some err)
  | Scanned r :: rows' =>
      col ← parseTableColumns_row r;
      parseTableColumns_rows rows' (cols ++ [col])
  end.

Definition parseTableColumns (a : t) (tablename : string)
  : outcome (list Column.t * option error) :=
  match DB.column_rows (db a) (schemaname a) tablename with
  | QueryFailed err => Returned ([], Some err)
  | Rows rows => parseTableColumns_rows rows []
  end.

(** *** parseTableConstraints *)

(** [fmt.Errorf("unsupported constraint type: %s", constrainttype)] *)
Definition unsupported_constraint_type (constrainttype : string) : error :=
  errorString ("unsupported constraint type: " +:+ constrainttype).

(** One iteration after a successful [rows.Scan]: the struct literal is
    built (and its three pointers dereferenced) before the [switch]. *)
Definition parseTableConstraints_row (tablename : string)
    (r : ConstraintRow.t) : outcome (Constraint.t + error) :=
  columnname ← deref (ConstraintRow.columnname r);
  foreignTablename ← deref (ConstraintRow.foreignTablename r);
  foreignColumnname ← deref (ConstraintRow.foreignColumnname r);
  let c (ty : ConstraintType) :=
    Constraint.mk (ConstraintRow.constraintname r) ty tablename columnname
      foreignTablename foreignColumnname in
  if decide (ConstraintRow.constrainttype r = "PRIMARY KEY") then
    mret (inl (c ConstraintTypePrimaryKey))
  else if decide (ConstraintRow.constrainttype r = "FOREIGN KEY") then
    mret (inl (c ConstraintTypeForeignKey))
  else if decide (ConstraintRow.constrainttype r = "UNIQUE") then
    mret (inl (c ConstraintTypeUnique))
  else
    mret (inr (unsupported_constraint_type (ConstraintRow.constrainttype r))).

Fixpoint parseTableConstraints_rows (tablename : string)
    (rows : list (scan ConstraintRow.t)) (constraints : list Constraint.t)
  : outcome (list Constraint.t * option error) :=
  match rows with
  | [] => Returned (constraints, None)
  | ScanFailed err :: _ => Returned ([], Some err)
  | Scanned r :: rows' =>
      res ← parseTableConstraints_row tablename r;
      match res with
      | inr err => Returned ([], Some err)
      | inl c => parseTableConstraints_rows tablename rows' (constraints ++ [c])
      end
  end.

Definition parseTableConstraints (a : t) (tablename : string)
  : outcome (list Constraint.t * option error) :=
  match DB.constraint_rows (db a) (schemaname a) tablename with
  | QueryFailed err => Returned ([], Some err)
  | Rows rows => parseTableConstraints_rows tablename rows []
  end.

(** *** refrenceConstraints *)

(** One iteration of [for _, c := range constraints] on the map behind
    [table.ColumnsByName]. *)
Definition refrenceConstraints_step (columnsByName : gmap string Column.t)
    (c : Constraint.t) : gmap string Column.t :=
  match columnsByName !! Constraint.Columnname c with
  | None => columnsByName (* continue // how? *)
  | Some col =>
      let col := match Column.Constraints col with
                 | [] => Column.set_Constraints [c] col
                 | cs => Column.set_Constraints (cs ++ [c]) col
                 end in
      let col := match Constraint.Type_ c with
                 | ConstraintTypePrimaryKey => Column.set_IsPrimary true col
                 | ConstraintTypeForeignKey =>
                     Column.set_ForeignColumnname (Constraint.ForeignColumnname c)
                       (Column.set_ForeignTablename (Constraint.ForeignTablename c)
                          (Column.set_IsReference true col))
                 | ConstraintTypeUnique => Column.set_IsUnique true col
                 | _ => col
                 end in
      <[Constraint.Columnname c := col]> columnsByName
  end.

(** The table after the call, and the returned [error] (always nil). *)
Definition refrenceConstraints (table : Table.t)
    (constraints : list Constraint.t) : Table.t * option error :=
  (Table.set_ColumnsByName
     (foldl refrenceConstraints_step (Table.ColumnsByName table) constraints)
     table,
   None).

(** *** parseTable *)

(** [less] of the [sort.Slice] call. *)
Definition less_OrdinalPosition (x y : Column.t) : bool :=
  bool_decide (Column.OrdinalPosition x < Column.OrdinalPosition y).

Definition parseTable `{GoRuntime} (a : t) (tablename : string)
  : outcome (option Table.t * option error) :=
  let table := Table.mk tablename [] ∅ in
  '(cols, err) ← parseTableColumns a tablename;
  match err with
  | Some err => Returned (Some table, Some err)
  | None =>
      let table :=
        Table.set_ColumnsByName
          (foldl (λ m col, <[Column.Name col := col]> m) ∅ cols) table in
      '(constraints, err) ← parseTableConstraints a tablename;
      match err with
      | Some err => Returned (Some table, Some err)
      | None =>
          let '(table, err) := refrenceConstraints table constraints in
          match err with
          | Some err => Returned (None, Some err)
          | None =>
              let table :=
                Table.set_Columns
                  (Table.Columns table
                   ++ (map_range (Table.ColumnsByName table)).*2) table in
              let table :=
                Table.set_Columns
                  (sort_Slice less_OrdinalPosition (Table.Columns table))
                  table in
              Returned (Some table, None)
          end
      end
  end.

(** *** Tables *)

Fixpoint Tables_rows `{GoRuntime} (a : t) (rows : list (scan (option string)))
    (tables : list Table.t) : outcome (list Table.t * option error) :=
  match rows with
  | [] => Returned (tables, None)
  | ScanFailed err :: _ => Returned ([], Some err)
  | Scanned tablename :: rows' =>
      tablename ← deref tablename;
      '(table, err) ← parseTable a tablename;
      match err with
      | Some err => Returned ([], Some err)
      | None =>
          table ← deref table;
          Tables_rows a rows' (tables ++ [table])
      end
  end.

Definition Tables `{GoRuntime} (a : t)
  : outcome (list Table.t * option error) :=
  match DB.table_rows (db a) (schemaname a) with
  | QueryFailed err => Returned ([], Some err)
  | Rows rows => Tables_rows a rows []
  end.
End PostgresAdapter.

(** [*PostgresAdapter] implements [Adapter]; its queries only read.  The
    instance runs the calls of one parse under one runtime; what may differ
    between two runs (the order in which maps are walked) is compared by
    taking two runtimes. *)
Global Instance PostgresAdapter_Adapter `{GoRuntime}
  : Adapter.t PostgresAdapter.t :=
  Adapter.mk PostgresAdapter.t
    (λ a, (a, PostgresAdapter.Tables a))
    (λ a, (a, PostgresAdapter.Enums a)).

(** ** The schema orchestrator *)

Module Schema.
(** The [adapter] field is the [Adapter.t] instance with its world. *)
Record t : Type := mk {
  Tables : list Table.t;
  Enums : list Enum.t
}.

(** The schema and the adapter's world after the call, and what the call
    did. *)
Definition ParseContext {W : Type} `{!Adapter.t W} (s : t) (w : W)
  : W * t * outcome (option error) :=
  let '(w, r) := Adapter.Tables w in
  match r with
  | Panicked => (w, s, Panicked)
  | Returned (tables, err) =>
      let s := mk tables (Enums s) in
      match err with
      | Some err => (w, s, Returned (Some err))
      | None =>
          let '(w, r) := Adapter.Enums w in
          match r with
          | Panicked => (w, s, Panicked)
          | Returned (enums, err) =>
              let s := mk (Tables s) enums in
              match err with
              | Some err => (w, s, Returned (Some err))
              | None => (w, s, Returned None)
              end
          end
      end
  end.

Definition Parse {W : Type} `{!Adapter.t W} (s : t) (w : W)
  : W * t * outcome (option error) :=
  ParseContext s w.
End Schema.

(** * Theorems *)

(** ** The reference runtime keeps the contracts *)

Section insertion_sort.
Context {A : Type} (less : A → A → bool).

Lemma insert_sorted_perm (x : A) (l : list A) :
  insert_sorted less x l ≡ₚ x :: l.
Proof.
  induction l as [|y l IH]; simpl; [done|].
  destruct (less x y); [done|].
  rewrite IH. apply Permutation_swap.
Qed.

Lemma insertion_sort_perm (l : list A) : insertion_sort less l ≡ₚ l.
Proof.
  unfold insertion_sort.
  assert (G : ∀ acc, foldl (λ acc x, insert_sorted less x acc) acc l ≡ₚ acc ++ l).
  { induction l as [|x l IH]; intros acc; simpl.
    - by rewrite app_nil_r.
    - rewrite IH, insert_sorted_perm. simpl. apply Permutation_middle. }
  apply G.
Qed.

Hypothesis less_swo : StrictWeakOrder less.

Lemma less_asym (x y : A) : less x y = true → less y x = false.
Proof.
  intros Hxy. destruct (less y x) eqn:Hyx; [|done].
  pose proof (swo_trans less less_swo _ _ _ Hxy Hyx) as Hxx.
  by rewrite (swo_irrefl less less_swo) in Hxx.
Qed.

Lemma insert_sorted_hd (x y : A) (l : list A) :
  less x y = false →
  HdRel (λ a b, less b a = false) y l →
  HdRel (λ a b, less b a = false) y (insert_sorted less x l).
Proof.
  intros Hxy Hl. destruct l as [|z l]; simpl.
  - by constructor.
  - destruct (less x z); constructor; [done|].
    by inversion Hl.
Qed.

Lemma insert_sorted_sorted (x : A) (l : list A) :
  Sorted (λ a b, less b a = false) l →
  Sorted (λ a b, less b a = false) (insert_sorted less x l).
Proof.
  induction 1 as [|y l Hl IH Hhd]; simpl.
  - by repeat constructor.
  - destruct (less x y) eqn:Hxy.
    + constructor; [by constructor|]. constructor. by apply less_asym.
    + constructor; [done|]. by apply insert_sorted_hd.
Qed.

Lemma insertion_sort_sorted (l : list A) :
  Sorted (λ a b, less b a = false) (insertion_sort less l).
Proof.
  unfold insertion_sort.
  assert (G : ∀ acc, Sorted (λ a b, less b a = false) acc →
    Sorted (λ a b, less b a = false)
      (foldl (λ acc x, insert_sorted less x acc) acc l)).
  { induction l as [|x l IH]; intros acc Hacc; simpl; [done|].
    by apply IH, insert_sorted_sorted. }
  apply G. constructor.
Qed.
End insertion_sort.

Definition reference_runtime : GoRuntime :=
  Build_GoRuntime
    (λ V m, map_to_list m)
    (λ V m, reflexivity _)
    (λ A less l, insertion_sort less l)
    (λ A less l, insertion_sort_perm less l)
    (λ A less Hswo l, insertion_sort_sorted less Hswo l).

(** A second runtime, walking maps in the opposite order. *)
Definition reversed_runtime : GoRuntime :=
  Build_GoRuntime
    (λ V m, reverse (map_to_list m))
    (λ V m, reverse_Permutation _)
    (λ A less l, insertion_sort less l)
    (λ A less l, insertion_sort_perm less l)
    (λ A less Hswo l, insertion_sort_sorted less Hswo l).

(** ** Enum extraction *)

(** The values the catalog delivered for the type [name], as delivered. *)
Definition delivered_values (name : string) (rows : list EnumRow.t)
  : list EnumValue.t :=
  (λ r, EnumValue.mk (EnumRow.label r) (EnumRow.order r))
    <$> filter (λ r, EnumRow.name r = name) rows.

Lemma delivered_values_cons (name : string) (r : EnumRow.t) (rows : list EnumRow.t) :
  delivered_values name (r :: rows) =
  if decide (EnumRow.name r = name)
  then EnumValue.mk (EnumRow.label r) (EnumRow.order r) :: delivered_values name rows
  else delivered_values name rows.
Proof.
  unfold delivered_values. rewrite filter_cons. by case_decide.
Qed.

Lemma Enums_rows_lookup (rows : list (scan EnumRow.t)) (m m' : gmap string Enum.t) :
  PostgresAdapter.Enums_rows rows m = inl m' →
  ∃ rs, rows = Scanned <$> rs ∧
    ∀ k, m' !! k =
      if decide (delivered_values k rs = []) then m !! k
      else Some (Enum.mk (from_option Enum.Name k (m !! k))
                   (from_option Enum.Values [] (m !! k) ++ delivered_values k rs)).
Proof.
  revert m. induction rows as [|[r|err] rows IH]; intros m Hrun; simpl in Hrun.
  - exists []. split; [done|]. intros k. injection Hrun as <-. done.
  - set (v := EnumValue.mk (EnumRow.label r) (EnumRow.order r)) in *.
    assert (∃ m1, PostgresAdapter.Enums_rows rows m1 = inl m' ∧
              ∀ k, m1 !! k =
                if decide (EnumRow.name r = k)
                then Some (Enum.mk (from_option Enum.Name k (m !! k))
                             (from_option Enum.Values [] (m !! k) ++ [v]))
                else m !! k) as (m1 & Hm1 & Hlk).
    { destruct (m !! EnumRow.name r) as [enum|] eqn:Hm;
        (eexists; split; [exact Hrun|]); intros k;
        (case_decide as Hk; [subst k; rewrite lookup_insert_eq, Hm; done
                            | by rewrite lookup_insert_ne]). }
    destruct (IH m1 Hm1) as (rs & -> & Hrs).
    exists (r :: rs). split; [done|]. intros k.
    rewrite Hrs, Hlk, delivered_values_cons. fold v.
    destruct (decide (EnumRow.name r = k)) as [Hk|Hk]; [|done].
    destruct (decide (v :: delivered_values k rs = [])) as [?|_]; [done|].
    destruct (decide (delivered_values k rs = [])) as [Hnil|_]; simpl.
    + by rewrite Hnil.
    + by rewrite <- app_assoc.
  - done.
Qed.

(** C1 (as the code has it).  When [Enums] succeeds, every row decoded, and
    the enums returned are exactly the type names that occur in the rows,
    each with the (label, order) pairs of its rows in the order the catalog
    delivered them; no sort by [order] takes place. *)
Theorem Enums_values_in_delivery_order `{GoRuntime} (a : PostgresAdapter.t)
    (enums : list Enum.t) :
  PostgresAdapter.Enums a = Returned (enums, None) →
  ∃ rs : list EnumRow.t,
    DB.enum_rows (PostgresAdapter.db a) (PostgresAdapter.schemaname a)
      = Rows (Scanned <$> rs) ∧
    ∀ e : Enum.t,
      e ∈ enums ↔
      delivered_values (Enum.Name e) rs ≠ [] ∧
      Enum.Values e = delivered_values (Enum.Name e) rs.
Proof.
  unfold PostgresAdapter.Enums. intros Hrun.
  destruct (DB.enum_rows _ _) as [err|rows]; [done|].
  destruct (PostgresAdapter.Enums_rows rows ∅) as [m|err] eqn:Hrows; [|done].
  injection Hrun as <-.
  destruct (Enums_rows_lookup _ _ _ Hrows) as (rs & -> & Hlk).
  exists rs. split; [done|]. intros e.
  rewrite (map_range_perm _ m).
  rewrite list_elem_of_fmap. split.
  - intros ([k e'] & -> & Hin). apply elem_of_map_to_list in Hin.
    rewrite Hlk, lookup_empty in Hin. case_decide; [done|].
    simpl in Hin. injection Hin as <-. done.
  - intros [Hne Hvals]. exists (Enum.Name e, e). split; [done|].
    apply elem_of_map_to_list. rewrite Hlk, lookup_empty.
    rewrite decide_False by done. simpl. rewrite <- Hvals. by destruct e.
Qed.

Definition enum_db (rows : list EnumRow.t) : DB.t :=
  DB.mk (λ _, Rows (Scanned <$> rows)) (λ _, Rows [])
        (λ _ _, Rows []) (λ _ _, Rows []).

Definition status_rows_done_first : list EnumRow.t :=
  [EnumRow.mk "status" 1 "done"; EnumRow.mk "status" 0 "pending"].

Definition status_rows_pending_first : list EnumRow.t :=
  [EnumRow.mk "status" 0 "pending"; EnumRow.mk "status" 1 "done"].

Lemma Enums_values_in_delivery_order_witness :
  ∃ rs : list EnumRow.t,
    DB.enum_rows (enum_db status_rows_done_first) "public"
      = Rows (Scanned <$> rs) ∧
    ∀ e : Enum.t,
      e ∈ [Enum.mk "status" [EnumValue.mk "done" 1; EnumValue.mk "pending" 0]] ↔
      delivered_values (Enum.Name e) rs ≠ [] ∧
      Enum.Values e = delivered_values (Enum.Name e) rs.
Proof.
  apply (@Enums_values_in_delivery_order reference_runtime
           (PostgresAdapter.mk (enum_db status_rows_done_first) "public")).
  vm_compute. reflexivity.
Defined.

(** C1 (as stated) fails: the same two rows of [status], delivered with
    [done] first, give values that are not sorted by [order]; delivered the
    other way round they give another sequence. *)
Lemma Enums_values_not_sorted :
  status_rows_done_first ≡ₚ status_rows_pending_first ∧
  @PostgresAdapter.Enums reference_runtime
     (PostgresAdapter.mk (enum_db status_rows_done_first) "public")
    = Returned ([Enum.mk "status" [EnumValue.mk "done" 1; EnumValue.mk "pending" 0]],
                None) ∧
  ¬ Sorted (λ x y, EnumValue.Order x ≤ EnumValue.Order y)
      [EnumValue.mk "done" 1; EnumValue.mk "pending" 0] ∧
  @PostgresAdapter.Enums reference_runtime
     (PostgresAdapter.mk (enum_db status_rows_pending_first) "public")
    = Returned ([Enum.mk "status" [EnumValue.mk "pending" 0; EnumValue.mk "done" 1]],
                None).
Proof.
  split; [apply Permutation_swap|].
  split; [vm_compute; reflexivity|].
  split; [|vm_compute; reflexivity].
  intros Hs. inversion Hs as [|? ? _ Hhd]; subst.
  inversion Hhd as [|? ? Hle]; subst. simpl in Hle. lia.
Qed.

(** ** Constraint extraction *)

(** The three pointers of a scanned constraint row are all non-nil. *)
Definition no_null (r : ConstraintRow.t) : Prop :=
  is_Some (ConstraintRow.columnname r) ∧
  is_Some (ConstraintRow.foreignTablename r) ∧
  is_Some (ConstraintRow.foreignColumnname r).

Global Instance no_null_dec (r : ConstraintRow.t) : Decision (no_null r).
Proof. unfold no_null. apply _. Defined.

(** The labels the [switch] of [parseTableConstraints] has a case for. *)
Definition switch_labels : list string :=
  ["PRIMARY KEY"; "FOREIGN KEY"; "UNIQUE"].

(** Every constraint kind [types.go] declares, as the catalog would label it. *)
Definition declared_labels : list string :=
  ["PRIMARY KEY"; "FOREIGN KEY"; "UNIQUE"; "CHECK"; "TRIGGER"; "EXCLUSION"].

Ltac row_cases r :=
  unfold PostgresAdapter.parseTableConstraints_row;
  destruct (ConstraintRow.columnname r) as [cn|];
  destruct (ConstraintRow.foreignTablename r) as [ft|];
  destruct (ConstraintRow.foreignColumnname r) as [fc|];
  simpl; try done;
  repeat case_decide; simpl; try done.

(** What a row that became the constraint [c] looked like. *)
Lemma parseTableConstraints_row_inl (tablename : string) (r : ConstraintRow.t)
    (c : Constraint.t) :
  PostgresAdapter.parseTableConstraints_row tablename r = Returned (inl c) →
  Constraint.Name c = ConstraintRow.constraintname r ∧
  Constraint.Tablename c = tablename ∧
  ConstraintRow.columnname r = Some (Constraint.Columnname c) ∧
  ConstraintRow.foreignTablename r = Some (Constraint.ForeignTablename c) ∧
  ConstraintRow.foreignColumnname r = Some (Constraint.ForeignColumnname c) ∧
  Constraint.Type_ c ∈
    [ConstraintTypePrimaryKey; ConstraintTypeForeignKey; ConstraintTypeUnique].
Proof.
  row_cases r; intros [= <-]; simpl; repeat split; set_solver.
Qed.

Lemma parseTableConstraints_rows_ok (tablename : string)
    (rows : list (scan ConstraintRow.t)) (acc cs : list Constraint.t) :
  PostgresAdapter.parseTableConstraints_rows tablename rows acc
    = Returned (cs, None) →
  ∃ rs cs', rows = Scanned <$> rs ∧ cs = acc ++ cs' ∧
    Forall2 (λ r c, PostgresAdapter.parseTableConstraints_row tablename r
                      = Returned (inl c)) rs cs'.
Proof.
  revert acc. induction rows as [|[r|err] rows IH]; intros acc Hrun; simpl in Hrun.
  - injection Hrun as <-. exists [], []. by rewrite app_nil_r.
  - destruct (PostgresAdapter.parseTableConstraints_row tablename r)
      as [[c|err]|] eqn:Hrow; simpl in Hrun; try done.
    destruct (IH _ Hrun) as (rs & cs' & -> & -> & Hall).
    exists (r :: rs), (c :: cs'). rewrite <- app_assoc.
    split; [done|]. split; [done|]. by constructor.
  - done.
Qed.

(** C2 (as the code has it).  Every constraint record of a successful
    extraction carries, whatever its type, the foreign table and column
    names of its catalog row verbatim. *)
Theorem parseTableConstraints_foreign_verbatim (a : PostgresAdapter.t)
    (tablename : string) (constraints : list Constraint.t) :
  PostgresAdapter.parseTableConstraints a tablename
    = Returned (constraints, None) →
  ∃ rs : list ConstraintRow.t,
    DB.constraint_rows (PostgresAdapter.db a) (PostgresAdapter.schemaname a)
      tablename = Rows (Scanned <$> rs) ∧
    Forall2 (λ r c,
        ConstraintRow.foreignTablename r = Some (Constraint.ForeignTablename c) ∧
        ConstraintRow.foreignColumnname r = Some (Constraint.ForeignColumnname c))
      rs constraints.
Proof.
  unfold PostgresAdapter.parseTableConstraints. intros Hrun.
  destruct (DB.constraint_rows _ _ _) as [err|rows]; [done|].
  destruct (parseTableConstraints_rows_ok _ _ _ _ Hrun) as (rs & cs' & -> & -> & Hall).
  exists rs. split; [done|]. simpl.
  eapply Forall2_impl; [exact Hall|].
  intros r c Hrow. apply parseTableConstraints_row_inl in Hrow. tauto.
Qed.

Definition constraint_db (rows : list ConstraintRow.t) : DB.t :=
  DB.mk (λ _, Rows []) (λ _, Rows []) (λ _ _, Rows [])
        (λ _ _, Rows (Scanned <$> rows)).

(** The row PostgreSQL reports for [PRIMARY KEY (id)] on [users]:
    [constraint_column_usage] names the constrained column itself. *)
Definition users_pkey_row : ConstraintRow.t :=
  ConstraintRow.mk "users_pkey" "PRIMARY KEY" (Some "id") (Some "users") (Some "id").

Definition users_pkey : Constraint.t :=
  Constraint.mk "users_pkey" ConstraintTypePrimaryKey "users" "id" "users" "id".

Lemma parseTableConstraints_foreign_verbatim_witness :
  ∃ rs : list ConstraintRow.t,
    DB.constraint_rows (constraint_db [users_pkey_row]) "public" "users"
      = Rows (Scanned <$> rs) ∧
    Forall2 (λ r c,
        ConstraintRow.foreignTablename r = Some (Constraint.ForeignTablename c) ∧
        ConstraintRow.foreignColumnname r = Some (Constraint.ForeignColumnname c))
      rs [users_pkey].
Proof.
  apply (parseTableConstraints_foreign_verbatim
           (PostgresAdapter.mk (constraint_db [users_pkey_row]) "public") "users").
  vm_compute. reflexivity.
Defined.

(** C2 (as stated) fails: a primary-key record with non-empty foreign
    fields. *)
Lemma parseTableConstraints_primary_key_foreign_fields :
  PostgresAdapter.parseTableConstraints
      (PostgresAdapter.mk (constraint_db [users_pkey_row]) "public") "users"
    = Returned ([users_pkey], None) ∧
  Constraint.Type_ users_pkey ≠ ConstraintTypeForeignKey ∧
  Constraint.ForeignTablename users_pkey ≠ "" ∧
  Constraint.ForeignColumnname users_pkey ≠ "".
Proof.
  split; [vm_compute; reflexivity|]. by repeat split.
Qed.

Lemma elem_of_switch_labels (label : string) :
  label ∈ switch_labels ↔
  label = "PRIMARY KEY" ∨ label = "FOREIGN KEY" ∨ label = "UNIQUE".
Proof.
  unfold switch_labels. rewrite !elem_of_cons, elem_of_nil. tauto.
Qed.

(** The [default] branch of the [switch], and its three cases. *)
Lemma parseTableConstraints_row_default (tablename : string) (r : ConstraintRow.t) :
  no_null r →
  ConstraintRow.constrainttype r ∉ switch_labels →
  PostgresAdapter.parseTableConstraints_row tablename r
    = Returned (inr (PostgresAdapter.unsupported_constraint_type
                       (ConstraintRow.constrainttype r))).
Proof.
  intros ([cn Hcn] & [ft Hft] & [fc Hfc]) Hlabel.
  rewrite elem_of_switch_labels in Hlabel.
  unfold PostgresAdapter.parseTableConstraints_row.
  rewrite Hcn, Hft, Hfc. simpl.
  repeat case_decide; tauto.
Qed.

Lemma parseTableConstraints_row_case (tablename : string) (r : ConstraintRow.t) :
  no_null r →
  ConstraintRow.constrainttype r ∈ switch_labels →
  ∃ c, PostgresAdapter.parseTableConstraints_row tablename r = Returned (inl c) ∧
       (ConstraintRow.constrainttype r = "PRIMARY KEY" →
          Constraint.Type_ c = ConstraintTypePrimaryKey) ∧
       (ConstraintRow.constrainttype r = "FOREIGN KEY" →
          Constraint.Type_ c = ConstraintTypeForeignKey) ∧
       (ConstraintRow.constrainttype r = "UNIQUE" →
          Constraint.Type_ c = ConstraintTypeUnique).
Proof.
  intros ([cn Hcn] & [ft Hft] & [fc Hfc]) Hlabel.
  rewrite elem_of_switch_labels in Hlabel.
  unfold PostgresAdapter.parseTableConstraints_row.
  rewrite Hcn, Hft, Hfc. simpl.
  repeat case_decide; try tauto;
    (eexists; split; [reflexivity|]; simpl; repeat split; intros; congruence).
Qed.

(** C3 (as the code has it).  A row without NULLs is a hard failure, with
    the error naming its label, exactly when the label is none of
    [PRIMARY KEY], [FOREIGN KEY], [UNIQUE]; each of these three is mapped
    to its constraint type. *)
Theorem parseTableConstraints_row_failure (tablename : string)
    (r : ConstraintRow.t) :
  no_null r →
  let label := ConstraintRow.constrainttype r in
  ((∃ err, PostgresAdapter.parseTableConstraints_row tablename r
             = Returned (inr err)) ↔ label ∉ switch_labels) ∧
  (label ∉ switch_labels →
     PostgresAdapter.parseTableConstraints_row tablename r
       = Returned (inr (errorString ("unsupported constraint type: " +:+ label)))) ∧
  (label ∈ switch_labels →
     ∃ c, PostgresAdapter.parseTableConstraints_row tablename r
            = Returned (inl c) ∧
          (label = "PRIMARY KEY" → Constraint.Type_ c = ConstraintTypePrimaryKey) ∧
          (label = "FOREIGN KEY" → Constraint.Type_ c = ConstraintTypeForeignKey) ∧
          (label = "UNIQUE" → Constraint.Type_ c = ConstraintTypeUnique)).
Proof.
  intros Hr label.
  pose proof (parseTableConstraints_row_default tablename r Hr) as Hdefault.
  pose proof (parseTableConstraints_row_case tablename r Hr) as Hcase.
  fold label in Hdefault, Hcase.
  split; [|split; [exact Hdefault|exact Hcase]].
  split.
  - intros [err Herr] Hin. destruct (Hcase Hin) as (c & Hc & _). congruence.
  - intros Hnot. eexists. by apply Hdefault.
Qed.

Lemma parseTableConstraints_row_failure_witness :
  ((∃ err, PostgresAdapter.parseTableConstraints_row "users" users_pkey_row
             = Returned (inr err)) ↔ "PRIMARY KEY" ∉ switch_labels) ∧
  ("PRIMARY KEY" ∉ switch_labels →
     PostgresAdapter.parseTableConstraints_row "users" users_pkey_row
       = Returned (inr (errorString
                          ("unsupported constraint type: " +:+ "PRIMARY KEY")))) ∧
  ("PRIMARY KEY" ∈ switch_labels →
     ∃ c, PostgresAdapter.parseTableConstraints_row "users" users_pkey_row
            = Returned (inl c) ∧
          ("PRIMARY KEY" = "PRIMARY KEY" →
             Constraint.Type_ c = ConstraintTypePrimaryKey) ∧
          ("PRIMARY KEY" = "FOREIGN KEY" →
             Constraint.Type_ c = ConstraintTypeForeignKey) ∧
          ("PRIMARY KEY" = "UNIQUE" → Constraint.Type_ c = ConstraintTypeUnique)).
Proof.
  apply (parseTableConstraints_row_failure "users" users_pkey_row).
  unfold no_null. simpl. eauto.
Defined.

Definition users_check_row : ConstraintRow.t :=
  ConstraintRow.mk "users_age_check" "CHECK" (Some "age") (Some "users") (Some "age").

(** C3 (as stated) fails: [CHECK] is one of the declared kinds, and a
    [CHECK] row is a hard failure of the row and of the extraction. *)
Lemma parseTableConstraints_check_fails :
  "CHECK" ∈ declared_labels ∧
  no_null users_check_row ∧
  PostgresAdapter.parseTableConstraints_row "users" users_check_row
    = Returned (inr (errorString "unsupported constraint type: CHECK")) ∧
  PostgresAdapter.parseTableConstraints
      (PostgresAdapter.mk (constraint_db [users_pkey_row; users_check_row]) "public")
      "users"
    = Returned ([], Some (errorString "unsupported constraint type: CHECK")).
Proof.
  split; [unfold declared_labels; rewrite !elem_of_cons; tauto|].
  split; [unfold no_null; simpl; eauto|].
  split; vm_compute; reflexivity.
Qed.

(** The extraction as a whole stops at the first row the [switch] has no
    case for, with that row's error. *)
Lemma parseTableConstraints_rows_unsupported (tablename : string)
    (good : list ConstraintRow.t) (r : ConstraintRow.t)
    (rest : list (scan ConstraintRow.t)) (acc : list Constraint.t) :
  Forall (λ r', no_null r' ∧ ConstraintRow.constrainttype r' ∈ switch_labels) good →
  no_null r →
  ConstraintRow.constrainttype r ∉ switch_labels →
  PostgresAdapter.parseTableConstraints_rows tablename
      ((Scanned <$> good) ++ Scanned r :: rest) acc
    = Returned ([], Some (PostgresAdapter.unsupported_constraint_type
                            (ConstraintRow.constrainttype r))).
Proof.
  intros Hgood Hr Hlabel. revert acc.
  induction Hgood as [|r' good [Hr' Hlabel'] _ IH]; intros acc; simpl.
  - by rewrite (parseTableConstraints_row_default tablename r Hr Hlabel).
  - destruct (parseTableConstraints_row_case tablename r' Hr' Hlabel')
      as (c & -> & _).
    simpl. apply IH.
Qed.

(** ** Column extraction *)

(** The classifier lookup with its fall-back, as both places in
    [parseTableColumns] do it. *)
Definition classify (raw : string) : Datatype :=
  match postgresDatatypemap !! raw with
  | Some datatype => datatype
  | None => DatatypeUnknown
  end.

Lemma set_Datatype_classify (raw : string) (col : Column.t) :
  match postgresDatatypemap !! raw with
  | Some datatype => Column.set_Datatype datatype col
  | None => Column.set_Datatype DatatypeUnknown col
  end = Column.set_Datatype (classify raw) col.
Proof. unfold classify. by destruct (postgresDatatypemap !! raw). Qed.

(** For the proofs, the loop body read in two parts: the assignments that
    run for every row, and the two blocks that depend on the datatype. *)
Definition scanned_fields (r : ColumnRow.t) : Column.t :=
  let col := Column.literal (ColumnRow.ordinalPosition r)
               (ColumnRow.columnName r) (ColumnRow.datatypeRaw r) in
  let col := match ColumnRow.comments r with
             | Some c => Column.set_Comments c col
             | None => col
             end in
  let col := match postgresDatatypemap !! ColumnRow.datatypeRaw r with
             | Some datatype => Column.set_Datatype datatype col
             | None => Column.set_Datatype DatatypeUnknown col
             end in
  let col := match ColumnRow.characterMaximumLength r with
             | Some n => Column.set_CharacterMaxLength n col
             | None => col
             end in
  let col := match ColumnRow.isNullable r with
             | Some s => if decide (s = "YES")
                         then Column.set_IsNullable true col else col
             | None => col
             end in
  match ColumnRow.columnDefault r with
  | Some d => if decide (0 < String.length d)%nat
              then Column.set_Default d (Column.set_HasDefault true col)
              else col
  | None => col
  end.

Definition resolve_types (r : ColumnRow.t) (col : Column.t) : outcome Column.t :=
  col ← (if decide (Column.Datatype_ col = DatatypeUserdefined) then
           name ← deref (ColumnRow.udtName r);
           schema ← deref (ColumnRow.udtSchema r);
           mret (Column.set_UserDefinedType
                   (Some (UserDefinedType.mk name schema))
                   (Column.set_IsUserDefined true col))
         else mret col);
  if decide (Column.Datatype_ col = DatatypeArray) then
    let col := Column.set_IsArray true col in
    elementArraytype ← deref (ColumnRow.elementArraytypeRaw r);
    let col := match postgresDatatypemap !! elementArraytype with
               | Some elementDatatype => Column.set_Datatype elementDatatype col
               | None => Column.set_Datatype DatatypeUnknown col
               end in
    if decide (Column.Datatype_ col = DatatypeUserdefined) then
      name ← deref (ColumnRow.elementUdtName r);
      schema ← deref (ColumnRow.elementUdtSchema r);
      mret (Column.set_UserDefinedType
              (Some (UserDefinedType.mk name schema))
              (Column.set_IsUserDefined true col))
    else mret col
  else mret col.

Lemma parseTableColumns_row_split (r : ColumnRow.t) :
  PostgresAdapter.parseTableColumns_row r = resolve_types r (scanned_fields r).
Proof. reflexivity. Qed.

(** Fields the datatype blocks never assign. *)
Definition same_base (c1 c2 : Column.t) : Prop :=
  Column.OrdinalPosition c1 = Column.OrdinalPosition c2 ∧
  Column.Name c1 = Column.Name c2 ∧
  Column.DatatypeRaw c1 = Column.DatatypeRaw c2 ∧
  Column.Constraints c1 = Column.Constraints c2 ∧
  Column.IsPrimary c1 = Column.IsPrimary c2 ∧
  Column.IsUnique c1 = Column.IsUnique c2 ∧
  Column.IsReference c1 = Column.IsReference c2 ∧
  Column.ForeignTablename c1 = Column.ForeignTablename c2 ∧
  Column.ForeignColumnname c1 = Column.ForeignColumnname c2.

Lemma scanned_fields_spec (r : ColumnRow.t) :
  same_base (scanned_fields r)
    (Column.literal (ColumnRow.ordinalPosition r) (ColumnRow.columnName r)
       (ColumnRow.datatypeRaw r)) ∧
  Column.Datatype_ (scanned_fields r) = classify (ColumnRow.datatypeRaw r) ∧
  Column.IsArray (scanned_fields r) = false ∧
  Column.IsUserDefined (scanned_fields r) = false ∧
  Column.UserDefinedType_ (scanned_fields r) = None.
Proof.
  unfold scanned_fields, same_base, classify.
  destruct (ColumnRow.comments r), (postgresDatatypemap !! ColumnRow.datatypeRaw r),
    (ColumnRow.characterMaximumLength r), (ColumnRow.isNullable r),
    (ColumnRow.columnDefault r);
    repeat case_decide; simpl; done.
Qed.

Lemma resolve_types_same_base (r : ColumnRow.t) (col0 col : Column.t) :
  resolve_types r col0 = Returned col → same_base col col0.
Proof.
  unfold resolve_types, same_base.
  destruct (decide (Column.Datatype_ col0 = DatatypeUserdefined)) as [Hud|Hud].
  - destruct (ColumnRow.udtName r), (ColumnRow.udtSchema r); simpl; try done.
    rewrite Hud. simpl. by intros [= <-].
  - simpl. destruct (decide (Column.Datatype_ col0 = DatatypeArray)) as [Harr|Harr];
      simpl; [|by intros [= <-]].
    destruct (ColumnRow.elementArraytypeRaw r) as [elem|]; simpl; [|done].
    destruct (postgresDatatypemap !! elem) as [d|]; simpl.
    + destruct (decide (d = DatatypeUserdefined)) as [Hd|Hd]; simpl;
        [|by intros [= <-]].
      destruct (ColumnRow.elementUdtName r), (ColumnRow.elementUdtSchema r);
        simpl; try done. by intros [= <-].
    + by intros [= <-].
Qed.

(** A column that leaves the extractor carries its row's position, name and
    raw type, and nothing yet of what the reconciler derives. *)
Lemma parseTableColumns_row_fresh (r : ColumnRow.t) (col : Column.t) :
  PostgresAdapter.parseTableColumns_row r = Returned col →
  same_base col
    (Column.literal (ColumnRow.ordinalPosition r) (ColumnRow.columnName r)
       (ColumnRow.datatypeRaw r)).
Proof.
  rewrite parseTableColumns_row_split. intros Hrun.
  apply resolve_types_same_base in Hrun.
  destruct (scanned_fields_spec r) as [Hbase _].
  unfold same_base in *. intuition congruence.
Qed.

(** The extractor returns the columns of its rows, in row order. *)
Lemma parseTableColumns_rows_ok (rows : list (scan ColumnRow.t))
    (acc cols : list Column.t) :
  PostgresAdapter.parseTableColumns_rows rows acc = Returned (cols, None) →
  ∃ rs cols', rows = Scanned <$> rs ∧ cols = acc ++ cols' ∧
    Forall2 (λ r col, PostgresAdapter.parseTableColumns_row r = Returned col)
      rs cols'.
Proof.
  revert acc. induction rows as [|[r|err] rows IH]; intros acc Hrun; simpl in Hrun.
  - injection Hrun as <-. exists [], []. by rewrite app_nil_r.
  - destruct (PostgresAdapter.parseTableColumns_row r) as [col|] eqn:Hrow;
      simpl in Hrun; [|done].
    destruct (IH _ Hrun) as (rs & cols' & -> & -> & Hall).
    exists (r :: rs), (col :: cols'). rewrite <- app_assoc.
    split; [done|]. split; [done|]. by constructor.
  - done.
Qed.


(** The row of the spec's example: a column [tags integer[]]. *)
Definition tags_row : ColumnRow.t :=
  ColumnRow.mk 3 "tags" None (Some "YES") "ARRAY" (Some "integer")
    (Some "app") (Some "pg_catalog") (Some "int4") None None
    (Some "app") (Some "pg_catalog") (Some "_int4") None.





(** ** NULLs behind the nil-able scan targets *)

(** C9.  Extraction is not total: a constraint row with a NULL column name,
    foreign table or foreign column, a column row that classifies as array
    with a NULL element type, one that classifies as user-defined with a
    NULL udt name or schema, and a NULL table name in the table listing each
    make the code panic; no error is returned and no field is defaulted. *)
Theorem null_dereference_panics :
  (∀ (tablename : string) (r : ConstraintRow.t),
     ConstraintRow.columnname r = None ∨
     ConstraintRow.foreignTablename r = None ∨
     ConstraintRow.foreignColumnname r = None →
     PostgresAdapter.parseTableConstraints_row tablename r = Panicked) ∧
  (∀ r : ColumnRow.t,
     classify (ColumnRow.datatypeRaw r) = DatatypeArray →
     ColumnRow.elementArraytypeRaw r = None →
     PostgresAdapter.parseTableColumns_row r = Panicked) ∧
  (∀ r : ColumnRow.t,
     classify (ColumnRow.datatypeRaw r) = DatatypeUserdefined →
     ColumnRow.udtName r = None ∨ ColumnRow.udtSchema r = None →
     PostgresAdapter.parseTableColumns_row r = Panicked) ∧
  (∀ (rt : GoRuntime) (a : PostgresAdapter.t) (rows : list (scan (option string)))
     (tables : list Table.t),
     PostgresAdapter.Tables_rows a (Scanned None :: rows) tables = Panicked).
Proof.
  repeat split.
  - intros tablename r Hnull. unfold PostgresAdapter.parseTableConstraints_row.
    destruct (ConstraintRow.columnname r), (ConstraintRow.foreignTablename r),
      (ConstraintRow.foreignColumnname r); simpl; try done.
    by destruct Hnull as [?|[?|?]].
  - intros r Harr Hnull. rewrite parseTableColumns_row_split.
    destruct (scanned_fields_spec r) as (_ & Hdt & _).
    unfold resolve_types. rewrite Hdt, Harr. simpl.
    rewrite Hdt, Harr, Hnull. reflexivity.
  - intros r Hud Hnull. rewrite parseTableColumns_row_split.
    destruct (scanned_fields_spec r) as (_ & Hdt & _).
    unfold resolve_types. rewrite Hdt, Hud. simpl.
    destruct Hnull as [->| ->]; [done|].
    by destruct (ColumnRow.udtName r).
Qed.

Definition null_column_constraint_row : ConstraintRow.t :=
  ConstraintRow.mk "users_email_key" "UNIQUE" None (Some "users") (Some "email").

Definition null_element_row : ColumnRow.t :=
  ColumnRow.mk 3 "tags" None (Some "YES") "ARRAY" None None None None None None
    (Some "app") (Some "pg_catalog") (Some "_int4") None.

Definition null_udt_row : ColumnRow.t :=
  ColumnRow.mk 2 "mood" None (Some "NO") "USER-DEFINED" None None None None None
    None (Some "app") (Some "public") None None.

Lemma null_dereference_panics_witness :
  PostgresAdapter.parseTableConstraints_row "users" null_column_constraint_row
    = Panicked ∧
  PostgresAdapter.parseTableColumns_row null_element_row = Panicked ∧
  PostgresAdapter.parseTableColumns_row null_udt_row = Panicked ∧
  @PostgresAdapter.Tables_rows reference_runtime
     (PostgresAdapter.mk (constraint_db []) "public") [Scanned None] []
    = Panicked.
Proof.
  destruct null_dereference_panics as (Hconstraint & Harray & Hudt & Htables).
  split; [apply Hconstraint; left; reflexivity|].
  split; [apply Harray; [vm_compute|]; reflexivity|].
  split; [apply Hudt; [vm_compute; reflexivity|left; reflexivity]|].
  apply Htables.
Defined.

(** ** Constraint reconciliation *)

(** The column update of one loop iteration, once the column is found. *)
Definition attach (col : Column.t) (c : Constraint.t) : Column.t :=
  let col := match Column.Constraints col with
             | [] => Column.set_Constraints [c] col
             | cs => Column.set_Constraints (cs ++ [c]) col
             end in
  match Constraint.Type_ c with
  | ConstraintTypePrimaryKey => Column.set_IsPrimary true col
  | ConstraintTypeForeignKey =>
      Column.set_ForeignColumnname (Constraint.ForeignColumnname c)
        (Column.set_ForeignTablename (Constraint.ForeignTablename c)
           (Column.set_IsReference true col))
  | ConstraintTypeUnique => Column.set_IsUnique true col
  | _ => col
  end.

Lemma refrenceConstraints_step_attach (m : gmap string Column.t) (c : Constraint.t) :
  PostgresAdapter.refrenceConstraints_step m c =
  match m !! Constraint.Columnname c with
  | None => m
  | Some col => <[Constraint.Columnname c := attach col c]> m
  end.
Proof. reflexivity. Qed.

(** Reconciliation acts on each key by itself: the entry under [k] receives
    the constraints owned by [k], in order. *)
Lemma refrenceConstraints_lookup (cs : list Constraint.t)
    (m : gmap string Column.t) (k : string) :
  foldl PostgresAdapter.refrenceConstraints_step m cs !! k =
  (λ col, foldl attach col (filter (λ c, Constraint.Columnname c = k) cs))
    <$> m !! k.
Proof.
  revert m. induction cs as [|c cs IH]; intros m; simpl.
  - by destruct (m !! k).
  - rewrite IH, refrenceConstraints_step_attach, filter_cons.
    destruct (decide (Constraint.Columnname c = k)) as [Heq|Hne].
    + rewrite Heq. destruct (m !! k) as [col|] eqn:Hm.
      * by rewrite lookup_insert_eq.
      * by rewrite Hm.
    + destruct (m !! Constraint.Columnname c) as [col|] eqn:Hm; [|done].
      by rewrite lookup_insert_ne.
Qed.

Lemma refrenceConstraints_dom (cs : list Constraint.t) (m : gmap string Column.t) :
  dom (foldl PostgresAdapter.refrenceConstraints_step m cs) = dom m.
Proof.
  apply set_eq. intros k. rewrite !elem_of_dom, refrenceConstraints_lookup.
  apply fmap_is_Some.
Qed.

Section attach.
Implicit Types (col : Column.t) (c : Constraint.t) (cs : list Constraint.t).

Lemma attach_Constraints col c :
  Column.Constraints (attach col c) = Column.Constraints col ++ [c].
Proof.
  unfold attach. by destruct (Column.Constraints col), (Constraint.Type_ c).
Qed.

Lemma attach_Name col c : Column.Name (attach col c) = Column.Name col.
Proof.
  unfold attach. by destruct (Column.Constraints col), (Constraint.Type_ c).
Qed.

Lemma attach_OrdinalPosition col c :
  Column.OrdinalPosition (attach col c) = Column.OrdinalPosition col.
Proof.
  unfold attach. by destruct (Column.Constraints col), (Constraint.Type_ c).
Qed.

Lemma attach_all_Constraints cs col :
  Column.Constraints (foldl attach col cs) = Column.Constraints col ++ cs.
Proof.
  revert col. induction cs as [|c cs IH]; intros col; simpl.
  - by rewrite app_nil_r.
  - by rewrite IH, attach_Constraints, <- app_assoc.
Qed.

Lemma attach_all_Name cs col :
  Column.Name (foldl attach col cs) = Column.Name col.
Proof.
  revert col. induction cs as [|c cs IH]; intros col; simpl; [done|].
  by rewrite IH, attach_Name.
Qed.

Lemma attach_all_OrdinalPosition cs col :
  Column.OrdinalPosition (foldl attach col cs) = Column.OrdinalPosition col.
Proof.
  revert col. induction cs as [|c cs IH]; intros col; simpl; [done|].
  by rewrite IH, attach_OrdinalPosition.
Qed.

(** A flag that is set was set before or comes from a constraint of the
    matching type among those attached. *)
Lemma attach_all_IsPrimary cs col :
  Column.IsPrimary (foldl attach col cs) = true →
  Column.IsPrimary col = true ∨
  ∃ c, c ∈ cs ∧ Constraint.Type_ c = ConstraintTypePrimaryKey.
Proof.
  revert col. induction cs as [|c cs IH]; intros col; simpl; [by left|].
  intros [Hprev|(c' & Hin & Hty)]%IH.
  - destruct (Constraint.Type_ c) eqn:Hty;
      try (left; revert Hprev; unfold attach; rewrite Hty;
           by destruct (Column.Constraints col)).
    right. exists c. split; [by left|done].
  - right. exists c'. split; [by right|done].
Qed.

Lemma attach_all_IsUnique cs col :
  Column.IsUnique (foldl attach col cs) = true →
  Column.IsUnique col = true ∨
  ∃ c, c ∈ cs ∧ Constraint.Type_ c = ConstraintTypeUnique.
Proof.
  revert col. induction cs as [|c cs IH]; intros col; simpl; [by left|].
  intros [Hprev|(c' & Hin & Hty)]%IH.
  - destruct (Constraint.Type_ c) eqn:Hty;
      try (left; revert Hprev; unfold attach; rewrite Hty;
           by destruct (Column.Constraints col)).
    right. exists c. split; [by left|done].
  - right. exists c'. split; [by right|done].
Qed.

(** The foreign fields are those of the last foreign-key constraint. *)
Lemma attach_all_IsReference cs col :
  Column.IsReference (foldl attach col cs) = true →
  (Column.IsReference col = true ∧
   Forall (λ c, Constraint.Type_ c ≠ ConstraintTypeForeignKey) cs ∧
   Column.ForeignTablename (foldl attach col cs) = Column.ForeignTablename col ∧
   Column.ForeignColumnname (foldl attach col cs) = Column.ForeignColumnname col) ∨
  ∃ before c after,
    cs = before ++ c :: after ∧
    Constraint.Type_ c = ConstraintTypeForeignKey ∧
    Forall (λ c', Constraint.Type_ c' ≠ ConstraintTypeForeignKey) after ∧
    Column.ForeignTablename (foldl attach col cs) = Constraint.ForeignTablename c ∧
    Column.ForeignColumnname (foldl attach col cs) = Constraint.ForeignColumnname c.
Proof.
  revert col. induction cs as [|c cs IH]; intros col; simpl.
  - intros Href. left. by repeat split.
  - intros [(Hprev & Hnone & Hft & Hfc)|(before & c' & after & -> & Hrest)]%IH.
    + destruct (decide (Constraint.Type_ c = ConstraintTypeForeignKey)) as [Hty|Hty].
      * right. exists [], c, cs. rewrite Hft, Hfc.
        unfold attach. rewrite Hty.
        by destruct (Column.Constraints col).
      * left. rewrite Hft, Hfc. split; [|split; [by constructor|]];
          unfold attach in *; destruct (Constraint.Type_ c);
          by destruct (Column.Constraints col).
    + right. by exists (c :: before), c', after.
Qed.
End attach.

Lemma refrenceConstraints_step_orphan (m : gmap string Column.t) (c : Constraint.t) :
  m !! Constraint.Columnname c = None →
  PostgresAdapter.refrenceConstraints_step m c = m.
Proof. intros Hm. by rewrite refrenceConstraints_step_attach, Hm. Qed.

(** C7.  A constraint whose owning column is not a key of the lookup mapping
    is skipped: reconciliation returns no error, its result is the one
    without that constraint, and a column holds the constraint afterwards
    only if it held it before. *)
Theorem refrenceConstraints_orphan_skipped (table : Table.t)
    (before after : list Constraint.t) (c : Constraint.t) :
  Table.ColumnsByName table !! Constraint.Columnname c = None →
  PostgresAdapter.refrenceConstraints table (before ++ c :: after)
    = PostgresAdapter.refrenceConstraints table (before ++ after) ∧
  (PostgresAdapter.refrenceConstraints table (before ++ c :: after)).2 = None ∧
  ∀ (k : string) (col : Column.t),
    Table.ColumnsByName
      (PostgresAdapter.refrenceConstraints table (before ++ c :: after)).1 !! k
      = Some col →
    ∃ col0 : Column.t,
      Table.ColumnsByName table !! k = Some col0 ∧
      (c ∈ Column.Constraints col → c ∈ Column.Constraints col0).
Proof.
  intros Horphan. unfold PostgresAdapter.refrenceConstraints. simpl.
  split; [|split; [done|]].
  - do 2 f_equal. rewrite !foldl_app. simpl.
    rewrite refrenceConstraints_step_orphan; [done|].
    apply not_elem_of_dom. rewrite refrenceConstraints_dom.
    by apply not_elem_of_dom.
  - intros k col. rewrite refrenceConstraints_lookup.
    destruct (Table.ColumnsByName table !! k) as [col0|] eqn:Hk; [|done].
    simpl. intros [= <-]. exists col0. split; [done|].
    rewrite attach_all_Constraints.
    intros [Hold|Hnew]%elem_of_app; [done|].
    apply list_elem_of_filter in Hnew as [Hname _].
    rewrite Hname, Hk in Horphan. done.
Qed.

Definition id_column : Column.t :=
  Column.set_Datatype DatatypeInt (Column.literal 1 "id" "integer").

Definition email_column : Column.t :=
  Column.set_Datatype DatatypeVarchar (Column.literal 2 "email" "character varying").

Definition users_table : Table.t :=
  Table.mk "users" [] (<["id" := id_column]> (<["email" := email_column]> ∅)).

Definition ghost_unique : Constraint.t :=
  Constraint.mk "users_ghost_key" ConstraintTypeUnique "users" "ghost" "users" "ghost".

Lemma refrenceConstraints_orphan_skipped_witness :
  PostgresAdapter.refrenceConstraints users_table ([users_pkey] ++ ghost_unique :: [])
    = PostgresAdapter.refrenceConstraints users_table ([users_pkey] ++ []) ∧
  (PostgresAdapter.refrenceConstraints users_table
     ([users_pkey] ++ ghost_unique :: [])).2 = None ∧
  ∀ (k : string) (col : Column.t),
    Table.ColumnsByName
      (PostgresAdapter.refrenceConstraints users_table
         ([users_pkey] ++ ghost_unique :: [])).1 !! k = Some col →
    ∃ col0 : Column.t,
      Table.ColumnsByName users_table !! k = Some col0 ∧
      (ghost_unique ∈ Column.Constraints col →
       ghost_unique ∈ Column.Constraints col0).
Proof.
  apply (refrenceConstraints_orphan_skipped users_table [users_pkey] []
           ghost_unique).
  vm_compute. reflexivity.
Defined.

Lemma owned_by_none (constraints : list Constraint.t) (k : string) :
  (∀ c, c ∈ constraints → Constraint.Columnname c ≠ k) →
  filter (λ c, Constraint.Columnname c = k) constraints = [].
Proof.
  induction constraints as [|c cs IH]; intros Hnone; [done|].
  rewrite filter_cons, decide_False.
  - apply IH. intros c' Hin. apply Hnone. by right.
  - apply Hnone. by left.
Qed.

(** C10.  Reconciliation leaves the entry under every key that no
    constraint names as owning column as it was, never changes the key set
    of the lookup mapping, and touches nothing else of the table. *)
Theorem refrenceConstraints_frame (table : Table.t)
    (constraints : list Constraint.t) (k : string) :
  (∀ c, c ∈ constraints → Constraint.Columnname c ≠ k) →
  let table' := (PostgresAdapter.refrenceConstraints table constraints).1 in
  Table.ColumnsByName table' !! k = Table.ColumnsByName table !! k ∧
  dom (Table.ColumnsByName table') = dom (Table.ColumnsByName table) ∧
  Table.Name table' = Table.Name table ∧
  Table.Columns table' = Table.Columns table.
Proof.
  intros Hnone. simpl. split; [|split; [apply refrenceConstraints_dom|done]].
  rewrite refrenceConstraints_lookup.
  replace (filter (λ c, Constraint.Columnname c = k) constraints) with
    (@nil Constraint.t).
  - by destruct (Table.ColumnsByName table !! k).
  - symmetry. by apply owned_by_none.
Qed.

Lemma refrenceConstraints_frame_witness :
  let table' := (PostgresAdapter.refrenceConstraints users_table [users_pkey]).1 in
  Table.ColumnsByName table' !! "email" = Table.ColumnsByName users_table !! "email" ∧
  dom (Table.ColumnsByName table') = dom (Table.ColumnsByName users_table) ∧
  Table.Name table' = Table.Name users_table ∧
  Table.Columns table' = Table.Columns users_table.
Proof.
  apply (refrenceConstraints_frame users_table [users_pkey] "email").
  intros c ->%list_elem_of_singleton. vm_compute. discriminate.
Defined.

(** ** Table assembly *)

(** What the reconciler has not yet derived on a column. *)
Definition fresh (col : Column.t) : Prop :=
  Column.Constraints col = [] ∧
  Column.IsPrimary col = false ∧
  Column.IsUnique col = false ∧
  Column.IsReference col = false.

Lemma parseTableColumns_rows_fresh (rows : list (scan ColumnRow.t))
    (acc cols : list Column.t) :
  Forall fresh acc →
  PostgresAdapter.parseTableColumns_rows rows acc = Returned (cols, None) →
  Forall fresh cols.
Proof.
  revert acc. induction rows as [|[r|err] rows IH]; intros acc Hacc Hrun;
    simpl in Hrun.
  - by injection Hrun as <-.
  - destruct (PostgresAdapter.parseTableColumns_row r) as [col|] eqn:Hrow;
      simpl in Hrun; [|done].
    eapply IH; [|exact Hrun].
    apply Forall_app. split; [done|]. constructor; [|done].
    apply parseTableColumns_row_fresh in Hrow.
    unfold same_base, fresh in *. simpl in Hrow. tauto.
  - done.
Qed.

Lemma parseTableColumns_fresh (a : PostgresAdapter.t) (tablename : string)
    (cols : list Column.t) :
  PostgresAdapter.parseTableColumns a tablename = Returned (cols, None) →
  Forall fresh cols.
Proof.
  unfold PostgresAdapter.parseTableColumns.
  destruct (DB.column_rows _ _ _) as [err|rows]; [done|].
  by apply parseTableColumns_rows_fresh.
Qed.

(** The map built by [table.ColumnsByName[col.Name] = col]. *)
Lemma ColumnsByName_lookup (cols : list Column.t) (m : gmap string Column.t)
    (k : string) (col : Column.t) :
  foldl (λ m col, <[Column.Name col := col]> m) m cols !! k = Some col →
  (col ∈ cols ∧ Column.Name col = k) ∨ m !! k = Some col.
Proof.
  revert m. induction cols as [|c cols IH]; intros m; simpl; [by right|].
  intros [[Hin Hname]|Hm]%IH.
  - left. split; [by right|done].
  - destruct (decide (Column.Name c = k)) as [Heq|Hne].
    + rewrite <- Heq, lookup_insert_eq in Hm. injection Hm as <-.
      left. split; [by left|done].
    + rewrite lookup_insert_ne in Hm by done. by right.
Qed.

(** The steps of a successful [parseTable]. *)
Lemma parseTable_ok `{GoRuntime} (a : PostgresAdapter.t) (tablename : string)
    (table : Table.t) :
  PostgresAdapter.parseTable a tablename = Returned (Some table, None) →
  ∃ cols constraints,
    PostgresAdapter.parseTableColumns a tablename = Returned (cols, None) ∧
    PostgresAdapter.parseTableConstraints a tablename
      = Returned (constraints, None) ∧
    Table.Name table = tablename ∧
    Table.ColumnsByName table =
      foldl PostgresAdapter.refrenceConstraints_step
        (foldl (λ m col, <[Column.Name col := col]> m) ∅ cols) constraints ∧
    Table.Columns table =
      sort_Slice PostgresAdapter.less_OrdinalPosition
        ((map_range (Table.ColumnsByName table)).*2).
Proof.
  unfold PostgresAdapter.parseTable. intros Hrun.
  destruct (PostgresAdapter.parseTableColumns a tablename)
    as [[cols [err|]]|]; simpl in Hrun; try done.
  destruct (PostgresAdapter.parseTableConstraints a tablename)
    as [[constraints [err|]]|]; simpl in Hrun; try done.
  injection Hrun as <-. by exists cols, constraints.
Qed.

(** Every entry of the lookup mapping of an assembled table is a fresh
    column of that name with the constraints it owns attached in order. *)
Lemma parseTable_entries `{GoRuntime} (a : PostgresAdapter.t) (tablename : string)
    (table : Table.t) (k : string) (col : Column.t) :
  PostgresAdapter.parseTable a tablename = Returned (Some table, None) →
  Table.ColumnsByName table !! k = Some col →
  ∃ col0 cs,
    fresh col0 ∧ Column.Name col0 = k ∧
    Forall (λ c, Constraint.Columnname c = k) cs ∧
    col = foldl attach col0 cs.
Proof.
  intros (cols & constraints & Hcols & _ & _ & Hmap & _)%parseTable_ok.
  rewrite Hmap, refrenceConstraints_lookup.
  destruct (foldl _ ∅ cols !! k) as [col0|] eqn:Hk; [|done].
  simpl. intros [= <-].
  apply ColumnsByName_lookup in Hk as [[Hin Hname]|Hk]; [|by rewrite lookup_empty in Hk].
  exists col0, (filter (λ c, Constraint.Columnname c = k) constraints).
  split; [|split; [done|split; [|done]]].
  - apply parseTableColumns_fresh in Hcols.
    by eapply Forall_forall in Hcols.
  - apply Forall_forall. by intros c [? _]%list_elem_of_filter.
Qed.

Lemma parseTable_Columns_elem `{GoRuntime} (a : PostgresAdapter.t)
    (tablename : string) (table : Table.t) (col : Column.t) :
  PostgresAdapter.parseTable a tablename = Returned (Some table, None) →
  col ∈ Table.Columns table ↔ ∃ k, Table.ColumnsByName table !! k = Some col.
Proof.
  intros (cols & constraints & _ & _ & _ & _ & ->)%parseTable_ok.
  rewrite sort_Slice_perm, (map_range_perm _ (Table.ColumnsByName table)).
  rewrite list_elem_of_fmap. split.
  - intros ([k c] & -> & Hin). exists k. by apply elem_of_map_to_list.
  - intros [k Hk]. exists (k, col). split; [done|]. by apply elem_of_map_to_list.
Qed.

(** C4 (as the code has it).  On every column of a successfully assembled
    table, a set [IsPrimary] (resp. [IsUnique]) comes with an attached
    primary-key (resp. unique) constraint owned by that column, and a set
    [IsReference] comes with an attached foreign-key constraint owned by
    that column, the last such one, whose foreign table and column names
    the column carries. *)
Theorem parseTable_flags_agree `{GoRuntime} (a : PostgresAdapter.t)
    (tablename : string) (table : Table.t) (col : Column.t) :
  PostgresAdapter.parseTable a tablename = Returned (Some table, None) →
  col ∈ Table.Columns table →
  (Column.IsPrimary col = true →
     ∃ c, c ∈ Column.Constraints col ∧
          Constraint.Type_ c = ConstraintTypePrimaryKey ∧
          Constraint.Columnname c = Column.Name col) ∧
  (Column.IsUnique col = true →
     ∃ c, c ∈ Column.Constraints col ∧
          Constraint.Type_ c = ConstraintTypeUnique ∧
          Constraint.Columnname c = Column.Name col) ∧
  (Column.IsReference col = true →
     ∃ before c after,
       Column.Constraints col = before ++ c :: after ∧
       Constraint.Type_ c = ConstraintTypeForeignKey ∧
       Constraint.Columnname c = Column.Name col ∧
       Forall (λ c', Constraint.Type_ c' ≠ ConstraintTypeForeignKey) after ∧
       Column.ForeignTablename col = Constraint.ForeignTablename c ∧
       Column.ForeignColumnname col = Constraint.ForeignColumnname c).
Proof.
  intros Hrun Hin.
  apply (parseTable_Columns_elem _ _ _ _ Hrun) in Hin as [k Hk].
  destruct (parseTable_entries _ _ _ _ _ Hrun Hk)
    as (col0 & cs & (Hnil & Hpk & Hun & Href) & Hname & Hown & ->).
  rewrite attach_all_Constraints, attach_all_Name, Hnil, Hname. simpl.
  rewrite Forall_forall in Hown.
  split; [|split].
  - intros [Hold|(c & Hc & Hty)]%attach_all_IsPrimary; [congruence|].
    exists c. auto.
  - intros [Hold|(c & Hc & Hty)]%attach_all_IsUnique; [congruence|].
    exists c. auto.
  - intros [(Hold & _)|(before & c & after & -> & Hty & Hlast & Hft & Hfc)]
      %attach_all_IsReference; [congruence|].
    exists before, c, after. repeat split; try done.
    apply Hown, elem_of_app. right. by left.
Qed.

(** The table of the spec's example,
    [users (id int primary key, email varchar unique,
            role_id int references roles(id))],
    with the column rows delivered out of order. *)
Definition users_column_rows : list ColumnRow.t :=
  [ ColumnRow.mk 3 "role_id" None (Some "YES") "integer" None None None None
      None (Some 32) (Some "app") (Some "pg_catalog") (Some "int4") None;
    ColumnRow.mk 1 "id" (Some "nextval('users_id_seq'::regclass)") (Some "NO")
      "integer" None None None None None (Some 32) (Some "app")
      (Some "pg_catalog") (Some "int4") None;
    ColumnRow.mk 2 "email" None (Some "NO") "character varying" None None None
      None (Some 255) None (Some "app") (Some "pg_catalog") (Some "varchar")
      (Some "login name") ].

Definition users_constraint_rows (foreign_table foreign_column : string)
  : list ConstraintRow.t :=
  [ users_pkey_row;
    ConstraintRow.mk "users_email_key" "UNIQUE" (Some "email") (Some "users")
      (Some "email");
    ConstraintRow.mk "users_role_id_fkey" "FOREIGN KEY" (Some "role_id")
      (Some foreign_table) (Some foreign_column) ].

Definition users_db (foreign_table foreign_column : string) : DB.t :=
  DB.mk (λ _, Rows (Scanned <$> status_rows_done_first))
        (λ _, Rows [Scanned (Some "users")])
        (λ _ _, Rows (Scanned <$> users_column_rows))
        (λ _ _, Rows (Scanned <$> users_constraint_rows foreign_table foreign_column)).

Definition users_adapter (foreign_table foreign_column : string)
  : PostgresAdapter.t :=
  PostgresAdapter.mk (users_db foreign_table foreign_column) "public".

Definition users_role_id_fkey (foreign_table foreign_column : string)
  : Constraint.t :=
  Constraint.mk "users_role_id_fkey" ConstraintTypeForeignKey "users" "role_id"
    foreign_table foreign_column.

(** [role_id] after assembly. *)
Definition role_id_column (foreign_table foreign_column : string) : Column.t :=
  Column.mk 3 "role_id" [users_role_id_fkey foreign_table foreign_column] true
    foreign_table foreign_column false false false "" true "integer"
    DatatypeInt false false 0 None "".

Definition assembled (r : outcome (option Table.t * option error)) : Table.t :=
  match r with
  | Returned (Some table, _) => table
  | _ => Table.mk "" [] ∅
  end.

Definition users_assembled (foreign_table foreign_column : string) : Table.t :=
  assembled (@PostgresAdapter.parseTable reference_runtime
               (users_adapter foreign_table foreign_column) "users").

Lemma parseTable_flags_agree_witness :
  let col := role_id_column "roles" "id" in
  (Column.IsPrimary col = true →
     ∃ c, c ∈ Column.Constraints col ∧
          Constraint.Type_ c = ConstraintTypePrimaryKey ∧
          Constraint.Columnname c = Column.Name col) ∧
  (Column.IsUnique col = true →
     ∃ c, c ∈ Column.Constraints col ∧
          Constraint.Type_ c = ConstraintTypeUnique ∧
          Constraint.Columnname c = Column.Name col) ∧
  (Column.IsReference col = true →
     ∃ before c after,
       Column.Constraints col = before ++ c :: after ∧
       Constraint.Type_ c = ConstraintTypeForeignKey ∧
       Constraint.Columnname c = Column.Name col ∧
       Forall (λ c', Constraint.Type_ c' ≠ ConstraintTypeForeignKey) after ∧
       Column.ForeignTablename col = Constraint.ForeignTablename c ∧
       Column.ForeignColumnname col = Constraint.ForeignColumnname c).
Proof.
  apply (@parseTable_flags_agree reference_runtime (users_adapter "roles" "id")
           "users" (users_assembled "roles" "id") (role_id_column "roles" "id")).
  - vm_compute. reflexivity.
  - vm_compute. do 2 right. left.
Defined.

(** C4 (as stated) fails on non-emptiness: the catalog row of the foreign
    key decides what the names are, and with empty names the assembled
    column is a reference to nothing. *)
Lemma parseTable_reference_empty_names :
  @PostgresAdapter.parseTable reference_runtime (users_adapter "" "") "users"
    = Returned (Some (users_assembled "" ""), None) ∧
  role_id_column "" "" ∈ Table.Columns (users_assembled "" "") ∧
  Column.IsReference (role_id_column "" "") = true ∧
  Column.Constraints (role_id_column "" "") = [users_role_id_fkey "" ""] ∧
  Column.ForeignTablename (role_id_column "" "") = "" ∧
  Column.ForeignColumnname (role_id_column "" "") = "".
Proof.
  split; [vm_compute; reflexivity|].
  split; [vm_compute; do 2 right; left|].
  by repeat split.
Qed.

(** Two foreign keys on one column: both are attached, and the column
    carries the names of the one reconciled last. *)
Example last_foreign_key_wins :
  let role_id := Column.set_Datatype DatatypeInt (Column.literal 3 "role_id" "integer") in
  let table := Table.mk "users" [] (<["role_id" := role_id]> ∅) in
  let constraints := [users_role_id_fkey "roles" "id";
                      users_role_id_fkey "legacy_roles" "code"] in
  Table.ColumnsByName (PostgresAdapter.refrenceConstraints table constraints).1
    !! "role_id"
  = Some (Column.mk 3 "role_id" constraints true "legacy_roles" "code" false
            false false "" false "integer" DatatypeInt false false 0 None "").
Proof. vm_compute. reflexivity. Qed.

Lemma less_OrdinalPosition_swo :
  StrictWeakOrder PostgresAdapter.less_OrdinalPosition.
Proof.
  unfold PostgresAdapter.less_OrdinalPosition. split.
  - intros x. apply bool_decide_eq_false. lia.
  - intros x y z Hxy%bool_decide_eq_true Hyz%bool_decide_eq_true.
    apply bool_decide_eq_true. lia.
  - intros x y z Hxy%bool_decide_eq_false Hyz%bool_decide_eq_false.
    apply bool_decide_eq_false. lia.
Qed.

Definition by_OrdinalPosition (x y : Column.t) : Prop :=
  Column.OrdinalPosition x ≤ Column.OrdinalPosition y.

Global Instance by_OrdinalPosition_trans : Transitive by_OrdinalPosition.
Proof. unfold by_OrdinalPosition. intros x y z. lia. Qed.

Lemma Sorted_weaken {A : Type} (R1 R2 : relation A) (l : list A) :
  (∀ x y, R1 x y → R2 x y) → Sorted R1 l → Sorted R2 l.
Proof.
  intros Himpl. induction 1 as [|x l Hl IH Hhd]; constructor; [done|].
  destruct Hhd; constructor. by apply Himpl.
Qed.

(** C5.  The column sequence of a successfully assembled table is
    non-decreasing in [OrdinalPosition]; it holds exactly the values of the
    lookup mapping, its names are exactly the keys, and a column is in the
    sequence if and only if the mapping has it under its name. *)
Theorem parseTable_columns_consistent `{GoRuntime} (a : PostgresAdapter.t)
    (tablename : string) (table : Table.t) :
  PostgresAdapter.parseTable a tablename = Returned (Some table, None) →
  StronglySorted by_OrdinalPosition (Table.Columns table) ∧
  Table.Columns table ≡ₚ (map_to_list (Table.ColumnsByName table)).*2 ∧
  Column.Name <$> Table.Columns table
    ≡ₚ (map_to_list (Table.ColumnsByName table)).*1 ∧
  ∀ col : Column.t,
    col ∈ Table.Columns table ↔
    Table.ColumnsByName table !! Column.Name col = Some col.
Proof.
  intros Hrun.
  assert (Hkeyed : ∀ k col, Table.ColumnsByName table !! k = Some col →
                            Column.Name col = k).
  { intros k col Hk.
    destruct (parseTable_entries _ _ _ _ _ Hrun Hk) as (col0 & cs & _ & <- & _ & ->).
    apply attach_all_Name. }
  assert (Hperm : Table.Columns table
                    ≡ₚ (map_to_list (Table.ColumnsByName table)).*2).
  { destruct (parseTable_ok _ _ _ Hrun) as (cols & constraints & _ & _ & _ & _ & ->).
    by rewrite sort_Slice_perm, (map_range_perm _ (Table.ColumnsByName table)). }
  split; [|split; [done|split]].
  - destruct (parseTable_ok _ _ _ Hrun) as (cols & constraints & _ & _ & _ & _ & ->).
    apply Sorted_StronglySorted; [apply _|].
    eapply Sorted_weaken; [|apply sort_Slice_sorted, less_OrdinalPosition_swo].
    intros x y Hless%bool_decide_eq_false. unfold by_OrdinalPosition. lia.
  - rewrite Hperm.
    assert (Heq : Column.Name <$> (map_to_list (Table.ColumnsByName table)).*2
                  = (map_to_list (Table.ColumnsByName table)).*1);
      [|by rewrite Heq].
    rewrite <- list_fmap_compose. apply list_fmap_ext.
    intros i [k col] Hi. simpl.
    apply Hkeyed, elem_of_map_to_list, list_elem_of_lookup. eauto.
  - intros col. rewrite (parseTable_Columns_elem _ _ _ _ Hrun). split.
    + intros [k Hk]. by rewrite (Hkeyed _ _ Hk).
    + eauto.
Qed.

Lemma parseTable_columns_consistent_witness :
  let table := users_assembled "roles" "id" in
  StronglySorted by_OrdinalPosition (Table.Columns table) ∧
  Table.Columns table ≡ₚ (map_to_list (Table.ColumnsByName table)).*2 ∧
  Column.Name <$> Table.Columns table
    ≡ₚ (map_to_list (Table.ColumnsByName table)).*1 ∧
  ∀ col : Column.t,
    col ∈ Table.Columns table ↔
    Table.ColumnsByName table !! Column.Name col = Some col.
Proof.
  apply (@parseTable_columns_consistent reference_runtime
           (users_adapter "roles" "id") "users" (users_assembled "roles" "id")).
  vm_compute. reflexivity.
Defined.

(** The assembled [users] table lists [id], [email], [role_id] in this
    order, whichever way the runtime walks the map. *)
Example users_assembled_names :
  Column.Name <$> Table.Columns (users_assembled "roles" "id")
    = ["id"; "email"; "role_id"] ∧
  Column.Name <$>
    Table.Columns (assembled (@PostgresAdapter.parseTable reversed_runtime
                                (users_adapter "roles" "id") "users"))
    = ["id"; "email"; "role_id"].
Proof. split; vm_compute; reflexivity. Qed.

(** ** The orchestrator *)

(** C8.  [ParseContext] returns nil exactly when the adapter's [Tables] and
    then its [Enums] both return a nil error.  An error of [Tables] is
    returned as it is, with the world left as [Tables] left it: [Enums] is
    not called.  An error of [Enums] is returned as it is. *)
Theorem ParseContext_steps {W : Type} `{!Adapter.t W} (s : Schema.t) (w : W) :
  let after_tables := (Adapter.Tables w).1 in
  let tables := (Adapter.Tables w).2 in
  let after_enums := (Adapter.Enums after_tables).1 in
  let enums := (Adapter.Enums after_tables).2 in
  ((Schema.ParseContext s w).2 = Returned None ↔
     (∃ ts, tables = Returned (ts, None)) ∧ (∃ es, enums = Returned (es, None))) ∧
  (∀ ts err, tables = Returned (ts, Some err) →
     Schema.ParseContext s w
       = (after_tables, Schema.mk ts (Schema.Enums s), Returned (Some err))) ∧
  (∀ ts es err, tables = Returned (ts, None) → enums = Returned (es, Some err) →
     Schema.ParseContext s w
       = (after_enums, Schema.mk ts es, Returned (Some err))) ∧
  (∀ ts es, tables = Returned (ts, None) → enums = Returned (es, None) →
     Schema.ParseContext s w = (after_enums, Schema.mk ts es, Returned None)).
Proof.
  unfold Schema.ParseContext.
  destruct (Adapter.Tables w) as [w1 [[ts [terr|]]|]]; simpl.
  - split; [split; [done|by intros [[? [=]] _]]|].
    split; [by intros ? ? [= -> ->]|]. split; intros; discriminate.
  - destruct (Adapter.Enums w1) as [w2 [[es [eerr|]]|]]; simpl.
    + split; [split; [done|by intros [_ [? [=]]]]|].
      split; [done|]. split; [by intros ? ? ? [= ->] [= -> ->]|done].
    + split; [split; [eauto|done]|].
      split; [done|]. split; [done|by intros ? ? [= ->] [= ->]].
    + split; [split; [done|by intros [_ [? [=]]]]|].
      split; [done|]. split; intros; discriminate.
  - split; [split; [done|by intros [[? [=]] _]]|].
    split; [done|]. split; intros; discriminate.
Qed.

(** An adapter that answers from a script and logs the calls it receives. *)
Definition scripted_adapter (tables : outcome (list Table.t * option error))
    (enums : outcome (list Enum.t * option error)) : Adapter.t (list string) :=
  Adapter.mk (list string)
    (λ log, (log ++ ["Tables"], tables))
    (λ log, (log ++ ["Enums"], enums)).

Definition connection_refused : error := errorString "dial tcp: connection refused".

Lemma ParseContext_steps_witness :
  @Schema.ParseContext (list string)
      (scripted_adapter (Returned ([], Some connection_refused))
                        (Returned ([], None)))
      (Schema.mk [] []) []
    = (["Tables"], Schema.mk [] [], Returned (Some connection_refused)).
Proof.
  pose proof (@ParseContext_steps (list string)
                (scripted_adapter (Returned ([], Some connection_refused))
                                  (Returned ([], None)))
                (Schema.mk [] []) []) as (_ & Hfail & _).
  apply Hfail. reflexivity.
Defined.

(** ** The examples of the spec, end to end *)

Example Parse_users :
  @Schema.Parse PostgresAdapter.t (@PostgresAdapter_Adapter reference_runtime)
      (Schema.mk [] []) (users_adapter "roles" "id")
    = (users_adapter "roles" "id",
       Schema.mk [users_assembled "roles" "id"]
         [Enum.mk "status" [EnumValue.mk "done" 1; EnumValue.mk "pending" 0]],
       Returned None).
Proof. vm_compute. reflexivity. Qed.

Example users_flags :
  let by_name := Table.ColumnsByName (users_assembled "roles" "id") in
  Column.IsPrimary <$> by_name !! "id" = Some true ∧
  Column.IsUnique <$> by_name !! "email" = Some true ∧
  by_name !! "role_id" = Some (role_id_column "roles" "id").
Proof. repeat split; vm_compute; reflexivity. Qed.

(** A unique constraint the catalog reports without a key column (the
    [LEFT JOIN] on [key_column_usage] found none) takes the whole parse
    down. *)
Example Parse_null_column_panics :
  (@Schema.Parse PostgresAdapter.t (@PostgresAdapter_Adapter reference_runtime)
     (Schema.mk [] [])
     (PostgresAdapter.mk
        (DB.mk (λ _, Rows []) (λ _, Rows [Scanned (Some "users")])
               (λ _ _, Rows (Scanned <$> users_column_rows))
               (λ _ _, Rows [Scanned null_column_constraint_row]))
        "public")).2
    = Panicked.
Proof. vm_compute. reflexivity. Qed.

(** * Further properties of the extraction *)

(** ** The constructors *)

Definition NewPostgresAdapter (db : DB.t) (schemaname : string)
  : PostgresAdapter.t :=
  PostgresAdapter.mk db schemaname.

(** [&Schema{adapter: adapter}]: both slices are nil. *)
Definition NewSchema : Schema.t := Schema.mk [] [].

(** ** The datatype table *)

Lemma postgresDatatypemap_lookup (raw : string) (d : Datatype) :
  postgresDatatypemap !! raw = Some d →
  (raw, d) ∈
    [ ("USER-DEFINED", DatatypeUserdefined); ("ARRAY", DatatypeArray);
      ("boolean", DatatypeBoolean); ("integer", DatatypeInt);
      ("bigint", DatatypeBigint); ("numeric", DatatypeNumeric);
      ("text", DatatypeText); ("character varying", DatatypeVarchar);
      ("jsonb", DatatypeJsonb); ("uuid", DatatypeUuid); ("date", DatatypeDate);
      ("timestamp without time zone", DatatypeTimestamp);
      ("timestamp with time zone", DatatypeTimestampz) ].
Proof. unfold postgresDatatypemap. apply elem_of_list_to_map_2. Qed.

Ltac mapped_cases H :=
  (apply postgresDatatypemap_lookup in H);
  (rewrite !elem_of_cons, elem_of_nil in H);
  (repeat (destruct H as [H|H]));
  simplify_eq.

(** The table never yields [DatatypeUnknown] or one of the four datatypes it
    has no name for, and no two names share a datatype: a classification
    other than unknown identifies the raw name. *)
Theorem classify_table (raw : string) :
  (classify raw = DatatypeUnknown ↔ postgresDatatypemap !! raw = None) ∧
  (classify raw ∉ [DatatypeSmallint; DatatypeDecimal; DatatypeVariableNumeric;
                   DatatypeJson]) ∧
  (classify raw = DatatypeArray ↔ raw = "ARRAY") ∧
  (classify raw = DatatypeUserdefined ↔ raw = "USER-DEFINED") ∧
  ∀ raw' : string,
    classify raw ≠ DatatypeUnknown → classify raw' = classify raw → raw' = raw.
Proof.
  unfold classify.
  destruct (postgresDatatypemap !! raw) as [d|] eqn:Hraw.
  - split; [split; [|done]|].
    { intros ->. by mapped_cases Hraw. }
    split.
    { rewrite !elem_of_cons, elem_of_nil.
      intros [->|[->|[->|[->|[]]]]]; by mapped_cases Hraw. }
    split; [|split].
    + split; intros ->; by mapped_cases Hraw.
    + split; intros ->; by mapped_cases Hraw.
    + intros raw' _.
      destruct (postgresDatatypemap !! raw') as [d'|] eqn:Hraw'.
      * intros ->. mapped_cases Hraw; by mapped_cases Hraw'.
      * intros <-. by mapped_cases Hraw.
  - split; [done|]. split.
    { rewrite !elem_of_cons, elem_of_nil. intros [|[|[|[|[]]]]]; done. }
    split; [|split].
    + split; [done|]. by intros ->.
    + split; [done|]. by intros ->.
    + done.
Qed.

(** ** One column row *)

(** Fields only the unconditional assignments write. *)
Definition same_scalars (c1 c2 : Column.t) : Prop :=
  Column.IsNullable c1 = Column.IsNullable c2 ∧
  Column.HasDefault c1 = Column.HasDefault c2 ∧
  Column.Default c1 = Column.Default c2 ∧
  Column.Comments c1 = Column.Comments c2 ∧
  Column.CharacterMaxLength c1 = Column.CharacterMaxLength c2.

Lemma resolve_types_same_scalars (r : ColumnRow.t) (col0 col : Column.t) :
  resolve_types r col0 = Returned col → same_scalars col col0.
Proof.
  unfold resolve_types, same_scalars.
  destruct (decide (Column.Datatype_ col0 = DatatypeUserdefined)) as [Hud|Hud].
  - destruct (ColumnRow.udtName r), (ColumnRow.udtSchema r); simpl; try done.
    rewrite Hud. simpl. by intros [= <-].
  - simpl. destruct (decide (Column.Datatype_ col0 = DatatypeArray)) as [Harr|Harr];
      simpl; [|by intros [= <-]].
    destruct (ColumnRow.elementArraytypeRaw r) as [elem|]; simpl; [|done].
    destruct (postgresDatatypemap !! elem) as [d|]; simpl.
    + destruct (decide (d = DatatypeUserdefined)) as [Hd|Hd]; simpl;
        [|by intros [= <-]].
      destruct (ColumnRow.elementUdtName r), (ColumnRow.elementUdtSchema r);
        simpl; try done. by intros [= <-].
    + by intros [= <-].
Qed.

Lemma String_length_pos (s : string) : (0 < String.length s)%nat ↔ s ≠ "".
Proof. destruct s; simpl; [|split; [done|lia]]. split; [lia|done]. Qed.

Lemma scanned_fields_scalars (r : ColumnRow.t) :
  Column.IsNullable (scanned_fields r)
    = bool_decide (ColumnRow.isNullable r = Some "YES") ∧
  Column.HasDefault (scanned_fields r)
    = bool_decide (default "" (ColumnRow.columnDefault r) ≠ "") ∧
  Column.Default (scanned_fields r) = default "" (ColumnRow.columnDefault r) ∧
  Column.Comments (scanned_fields r) = default "" (ColumnRow.comments r) ∧
  Column.CharacterMaxLength (scanned_fields r)
    = default 0 (ColumnRow.characterMaximumLength r).
Proof.
  unfold scanned_fields.
  destruct (ColumnRow.comments r) as [cm|],
    (postgresDatatypemap !! ColumnRow.datatypeRaw r) as [dt|],
    (ColumnRow.characterMaximumLength r) as [n|],
    (ColumnRow.isNullable r) as [yn|],
    (ColumnRow.columnDefault r) as [df|]; simpl;
    try destruct (decide (yn = "YES")) as [Hyn|Hyn];
    try destruct (decide (0 < String.length df)%nat) as [Hdf|Hdf];
    simpl; repeat split;
    try reflexivity;
    try (symmetry; apply bool_decide_eq_true; first [congruence|by apply String_length_pos]);
    try (symmetry; apply bool_decide_eq_false; congruence);
    try (destruct df; [reflexivity|simpl in Hdf; lia]).
Qed.

(** The nullability, default, comment and length fields of an extracted
    column: nullable exactly for the literal [YES]; [HasDefault] exactly
    when the stored default is non-empty; a NULL default, comment or length
    leaves Go's zero value. *)
Theorem parseTableColumns_row_scalars (r : ColumnRow.t) (col : Column.t) :
  PostgresAdapter.parseTableColumns_row r = Returned col →
  (Column.IsNullable col = true ↔ ColumnRow.isNullable r = Some "YES") ∧
  (Column.HasDefault col = true ↔ Column.Default col ≠ "") ∧
  Column.Default col = default "" (ColumnRow.columnDefault r) ∧
  Column.Comments col = default "" (ColumnRow.comments r) ∧
  Column.CharacterMaxLength col = default 0 (ColumnRow.characterMaximumLength r).
Proof.
  rewrite parseTableColumns_row_split.
  intros (Hn & Hh & Hd & Hc & Hl)%resolve_types_same_scalars.
  destruct (scanned_fields_scalars r) as (Hn' & Hh' & Hd' & Hc' & Hl').
  rewrite Hn, Hh, Hd, Hc, Hl, Hn', Hh', Hd', Hc', Hl'.
  rewrite !bool_decide_eq_true. done.
Qed.

Lemma parseTableColumns_row_scalars_witness :
  let col := Column.mk 1 "id" [] false "" "" false false true
               "nextval('users_id_seq'::regclass)" false "integer" DatatypeInt
               false false 0 None "" in
  (Column.IsNullable col = true ↔ Some "NO" = Some "YES") ∧
  (Column.HasDefault col = true ↔ Column.Default col ≠ "") ∧
  Column.Default col = "nextval('users_id_seq'::regclass)" ∧
  Column.Comments col = "" ∧
  Column.CharacterMaxLength col = 0.
Proof.
  apply (parseTableColumns_row_scalars
           (ColumnRow.mk 1 "id" (Some "nextval('users_id_seq'::regclass)")
              (Some "NO") "integer" None None None None None (Some 32)
              (Some "app") (Some "pg_catalog") (Some "int4") None)).
  vm_compute. reflexivity.
Defined.

Lemma resolve_types_flags (r : ColumnRow.t) (col0 col : Column.t) :
  Column.IsArray col0 = false →
  Column.IsUserDefined col0 = false →
  Column.UserDefinedType_ col0 = None →
  resolve_types r col0 = Returned col →
  (Column.IsUserDefined col = true ↔ Column.Datatype_ col = DatatypeUserdefined) ∧
  (Column.IsUserDefined col = true ↔ is_Some (Column.UserDefinedType_ col)) ∧
  (Column.IsArray col = true ↔ Column.Datatype_ col0 = DatatypeArray) ∧
  (Column.IsArray col = false → Column.Datatype_ col = Column.Datatype_ col0) ∧
  (Column.IsArray col = true →
     ∃ elem, ColumnRow.elementArraytypeRaw r = Some elem ∧
             Column.Datatype_ col = classify elem).
Proof.
  intros Harr0 Hud0 Hudt0. unfold resolve_types.
  destruct (decide (Column.Datatype_ col0 = DatatypeUserdefined)) as [Hud|Hud].
  - destruct (ColumnRow.udtName r), (ColumnRow.udtSchema r); simpl; try done.
    rewrite Hud. simpl. intros [= <-]. simpl. rewrite Harr0, Hud.
    repeat split; try done; eauto.
  - simpl. destruct (decide (Column.Datatype_ col0 = DatatypeArray)) as [Harr|Harr];
      simpl.
    + destruct (ColumnRow.elementArraytypeRaw r) as [elem|]; simpl; [|done].
      rewrite set_Datatype_classify. simpl.
      destruct (decide (classify elem = DatatypeUserdefined)) as [Hd|Hd]; simpl.
      * destruct (ColumnRow.elementUdtName r), (ColumnRow.elementUdtSchema r);
          simpl; try done. intros [= <-]. simpl.
        repeat split; try done; eauto.
      * intros [= <-]. simpl. rewrite Hud0, Hudt0.
        repeat split; try done; try (by intros [? ?]); eauto.
    + intros [= <-]. rewrite Harr0, Hud0, Hudt0.
      repeat split; try done; by intros [? ?].
Qed.

(** On every extracted column, [IsUserDefined], a datatype of user-defined
    and a present [UserDefinedType] go together; [IsArray] is set exactly
    for rows that classify as array, whose datatype is then the element's;
    otherwise the datatype is the row's own classification. *)
Theorem parseTableColumns_row_flags (r : ColumnRow.t) (col : Column.t) :
  PostgresAdapter.parseTableColumns_row r = Returned col →
  (Column.IsUserDefined col = true ↔ Column.Datatype_ col = DatatypeUserdefined) ∧
  (Column.IsUserDefined col = true ↔ is_Some (Column.UserDefinedType_ col)) ∧
  (Column.IsArray col = true ↔ classify (ColumnRow.datatypeRaw r) = DatatypeArray) ∧
  (Column.IsArray col = false →
     Column.Datatype_ col = classify (ColumnRow.datatypeRaw r)) ∧
  (Column.IsArray col = true →
     ∃ elem, ColumnRow.elementArraytypeRaw r = Some elem ∧
             Column.Datatype_ col = classify elem).
Proof.
  rewrite parseTableColumns_row_split. intros Hrun.
  destruct (scanned_fields_spec r) as (_ & Hdt & Harr & Hud & Hudt).
  rewrite <- Hdt. by apply resolve_types_flags.
Qed.

(** A column [mood public.mood_t]. *)
Definition mood_row : ColumnRow.t :=
  ColumnRow.mk 4 "mood" None (Some "YES") "USER-DEFINED" None None None None
    None None (Some "app") (Some "public") (Some "mood_t") None.

Definition mood_column : Column.t :=
  Column.mk 4 "mood" [] false "" "" false false false "" true "USER-DEFINED"
    DatatypeUserdefined true false 0
    (Some (UserDefinedType.mk "mood_t" "public")) "".

Lemma parseTableColumns_row_flags_witness :
  (Column.IsUserDefined mood_column = true ↔
     Column.Datatype_ mood_column = DatatypeUserdefined) ∧
  (Column.IsUserDefined mood_column = true ↔
     is_Some (Column.UserDefinedType_ mood_column)) ∧
  (Column.IsArray mood_column = true ↔ classify "USER-DEFINED" = DatatypeArray) ∧
  (Column.IsArray mood_column = false →
     Column.Datatype_ mood_column = classify "USER-DEFINED") ∧
  (Column.IsArray mood_column = true →
     ∃ elem, ColumnRow.elementArraytypeRaw mood_row = Some elem ∧
             Column.Datatype_ mood_column = classify elem).
Proof.
  apply (parseTableColumns_row_flags mood_row mood_column).
  vm_compute. reflexivity.
Defined.

(** A row that classifies as user-defined and has its udt name and schema
    becomes a user-defined, non-array column carrying that name and schema;
    the element-level fields play no part. *)
Theorem parseTableColumns_row_userdefined (r : ColumnRow.t) (name schema : string) :
  classify (ColumnRow.datatypeRaw r) = DatatypeUserdefined →
  ColumnRow.udtName r = Some name →
  ColumnRow.udtSchema r = Some schema →
  ∃ col : Column.t,
    PostgresAdapter.parseTableColumns_row r = Returned col ∧
    Column.Datatype_ col = DatatypeUserdefined ∧
    Column.IsUserDefined col = true ∧
    Column.IsArray col = false ∧
    Column.UserDefinedType_ col = Some (UserDefinedType.mk name schema).
Proof.
  intros Hud Hname Hschema. rewrite parseTableColumns_row_split.
  destruct (scanned_fields_spec r) as (_ & Hdt & Harr & _).
  unfold resolve_types. rewrite Hdt, Hud, Hname, Hschema. simpl.
  rewrite Hdt, Hud. simpl. eexists. split; [reflexivity|]. simpl.
  by rewrite Hdt, Hud, Harr.
Qed.

Lemma parseTableColumns_row_userdefined_witness :
  ∃ col : Column.t,
    PostgresAdapter.parseTableColumns_row mood_row = Returned col ∧
    Column.Datatype_ col = DatatypeUserdefined ∧
    Column.IsUserDefined col = true ∧
    Column.IsArray col = false ∧
    Column.UserDefinedType_ col = Some (UserDefinedType.mk "mood_t" "public").
Proof.
  apply (parseTableColumns_row_userdefined mood_row "mood_t" "public");
    vm_compute; reflexivity.
Defined.

(** A row that classifies neither as user-defined nor as array always
    becomes a column, whatever NULLs it holds: none of the nil-able pointers
    is dereferenced unguarded. *)
Theorem parseTableColumns_row_plain (r : ColumnRow.t) :
  classify (ColumnRow.datatypeRaw r) ≠ DatatypeUserdefined →
  classify (ColumnRow.datatypeRaw r) ≠ DatatypeArray →
  ∃ col : Column.t,
    PostgresAdapter.parseTableColumns_row r = Returned col ∧
    Column.Datatype_ col = classify (ColumnRow.datatypeRaw r) ∧
    Column.IsUserDefined col = false ∧
    Column.IsArray col = false ∧
    Column.UserDefinedType_ col = None.
Proof.
  intros Hud Harr. rewrite parseTableColumns_row_split.
  destruct (scanned_fields_spec r) as (_ & Hdt & Harr0 & Hud0 & Hudt0).
  unfold resolve_types. rewrite Hdt.
  rewrite decide_False by done. simpl. rewrite Hdt.
  rewrite decide_False by done. simpl. eauto 10.
Qed.

Definition all_null_row : ColumnRow.t :=
  ColumnRow.mk 7 "note" None None "text" None None None None None None None
    None None None.

Lemma parseTableColumns_row_plain_witness :
  ∃ col : Column.t,
    PostgresAdapter.parseTableColumns_row all_null_row = Returned col ∧
    Column.Datatype_ col = classify "text" ∧
    Column.IsUserDefined col = false ∧
    Column.IsArray col = false ∧
    Column.UserDefinedType_ col = None.
Proof.
  apply (parseTableColumns_row_plain all_null_row); vm_compute; discriminate.
Defined.

(** ** The column and constraint extractors as a whole *)

Lemma Scanned_fmap_inj {R : Type} (rs rs' : list R) :
  Scanned <$> rs = Scanned <$> rs' → rs = rs'.
Proof.
  revert rs'. induction rs as [|r rs IH]; intros [|r' rs']; simpl; try done.
  intros [= -> Heq]. f_equal. by apply IH.
Qed.

(** A successful column extraction decoded every row and returns one column
    per row, in row order, with the row's position, name and raw type. *)
Theorem parseTableColumns_row_order (a : PostgresAdapter.t) (tablename : string)
    (cols : list Column.t) :
  PostgresAdapter.parseTableColumns a tablename = Returned (cols, None) →
  ∃ rs : list ColumnRow.t,
    DB.column_rows (PostgresAdapter.db a) (PostgresAdapter.schemaname a) tablename
      = Rows (Scanned <$> rs) ∧
    length cols = length rs ∧
    Column.Name <$> cols = ColumnRow.columnName <$> rs ∧
    Column.OrdinalPosition <$> cols = ColumnRow.ordinalPosition <$> rs ∧
    Column.DatatypeRaw <$> cols = ColumnRow.datatypeRaw <$> rs.
Proof.
  unfold PostgresAdapter.parseTableColumns.
  destruct (DB.column_rows _ _ _) as [err|rows]; [done|].
  intros (rs & cols' & -> & -> & Hall)%parseTableColumns_rows_ok.
  exists rs. split; [done|]. simpl.
  induction Hall as [|r col rs cols' Hrow _ IH]; [done|].
  apply parseTableColumns_row_fresh in Hrow as (Hord & Hname & Hraw & _).
  destruct IH as (Hlen & Hnames & Hords & Hraws).
  rewrite !fmap_cons, !length_cons, Hlen, Hnames, Hords, Hraws, Hord, Hname, Hraw.
  done.
Qed.

Definition extracted (r : outcome (list Column.t * option error))
  : list Column.t :=
  match r with
  | Returned (cols, _) => cols
  | Panicked => []
  end.

Definition users_columns : list Column.t :=
  extracted (PostgresAdapter.parseTableColumns (users_adapter "roles" "id") "users").

Lemma parseTableColumns_row_order_witness :
  ∃ rs : list ColumnRow.t,
    DB.column_rows (users_db "roles" "id") "public" "users"
      = Rows (Scanned <$> rs) ∧
    length users_columns = length rs ∧
    Column.Name <$> users_columns = ColumnRow.columnName <$> rs ∧
    Column.OrdinalPosition <$> users_columns = ColumnRow.ordinalPosition <$> rs ∧
    Column.DatatypeRaw <$> users_columns = ColumnRow.datatypeRaw <$> rs.
Proof.
  apply (parseTableColumns_row_order (users_adapter "roles" "id") "users"
           users_columns).
  vm_compute. reflexivity.
Defined.

(** A row that fails to decode ends the column extraction with that error
    and no columns, also after rows that were extracted. *)
Theorem parseTableColumns_scan_error (a : PostgresAdapter.t) (tablename : string)
    (good : list ColumnRow.t) (err : error) (rest : list (scan ColumnRow.t)) :
  DB.column_rows (PostgresAdapter.db a) (PostgresAdapter.schemaname a) tablename
    = Rows ((Scanned <$> good) ++ ScanFailed err :: rest) →
  Forall (λ r, PostgresAdapter.parseTableColumns_row r ≠ Panicked) good →
  PostgresAdapter.parseTableColumns a tablename = Returned ([], Some err).
Proof.
  unfold PostgresAdapter.parseTableColumns. intros -> Hgood.
  assert (G : ∀ acc, PostgresAdapter.parseTableColumns_rows
                       ((Scanned <$> good) ++ ScanFailed err :: rest) acc
                     = Returned ([], Some err)); [|apply G].
  induction Hgood as [|r good Hr _ IH]; intros acc; simpl; [done|].
  destruct (PostgresAdapter.parseTableColumns_row r); [|done]. simpl. apply IH.
Qed.

Definition bad_scan : error :=
  errorString "sql: Scan error on column index 0: converting NULL to int is unsupported".

Lemma parseTableColumns_scan_error_witness :
  PostgresAdapter.parseTableColumns
      (PostgresAdapter.mk
         (DB.mk (λ _, Rows []) (λ _, Rows [])
                (λ _ _, Rows ((Scanned <$> [tags_row; mood_row])
                                ++ ScanFailed bad_scan :: [Scanned all_null_row]))
                (λ _ _, Rows []))
         "public")
      "users"
    = Returned ([], Some bad_scan).
Proof.
  apply (parseTableColumns_scan_error _ "users" [tags_row; mood_row] bad_scan
           [Scanned all_null_row]).
  - reflexivity.
  - repeat constructor; vm_compute; discriminate.
Defined.

(** The constraint extraction succeeds exactly when every row has its three
    pointers non-NULL and a label the [switch] knows; it then returns one
    constraint per row, in row order, named as the row and owned by the
    table asked for. *)
Theorem parseTableConstraints_success (a : PostgresAdapter.t) (tablename : string)
    (rs : list ConstraintRow.t) :
  DB.constraint_rows (PostgresAdapter.db a) (PostgresAdapter.schemaname a)
    tablename = Rows (Scanned <$> rs) →
  ((∃ constraints, PostgresAdapter.parseTableConstraints a tablename
                     = Returned (constraints, None)) ↔
   Forall (λ r, no_null r ∧ ConstraintRow.constrainttype r ∈ switch_labels) rs) ∧
  ∀ constraints,
    PostgresAdapter.parseTableConstraints a tablename
      = Returned (constraints, None) →
    Constraint.Name <$> constraints = ConstraintRow.constraintname <$> rs ∧
    Some ∘ Constraint.Columnname <$> constraints = ConstraintRow.columnname <$> rs ∧
    Forall (λ c, Constraint.Tablename c = tablename) constraints.
Proof.
  unfold PostgresAdapter.parseTableConstraints. intros ->.
  split; [split|].
  - intros [constraints (rs' & cs' & Heq & -> & Hall)%parseTableConstraints_rows_ok].
    apply Scanned_fmap_inj in Heq as <-.
    induction Hall as [|r c rs cs' Hrow _ IH]; constructor; [|done].
    destruct (decide (no_null r)) as [Hr|Hr].
    + split; [done|].
      destruct (decide (ConstraintRow.constrainttype r ∈ switch_labels))
        as [|Hlabel]; [done|].
      rewrite (parseTableConstraints_row_default _ _ Hr Hlabel) in Hrow. done.
    + exfalso. apply Hr. unfold no_null.
      apply parseTableConstraints_row_inl in Hrow as (_ & _ & -> & -> & -> & _).
      eauto.
  - intros Hall.
    assert (G : ∀ acc, ∃ constraints,
              PostgresAdapter.parseTableConstraints_rows tablename
                (Scanned <$> rs) acc = Returned (constraints, None)); [|apply G].
    induction Hall as [|r rs [Hr Hlabel] _ IH]; intros acc; simpl; [eauto|].
    destruct (parseTableConstraints_row_case tablename r Hr Hlabel) as (c & -> & _).
    simpl. apply IH.
  - intros constraints (rs' & cs' & Heq & -> & Hall)%parseTableConstraints_rows_ok.
    apply Scanned_fmap_inj in Heq as <-. simpl.
    induction Hall as [|r c rs cs' Hrow _ IH]; [done|].
    apply parseTableConstraints_row_inl in Hrow as (Hname & Htable & Hcol & _).
    destruct IH as (Hnames & Hcols & Htables).
    rewrite !fmap_cons, Hnames, Hcols, Hname. simpl. rewrite Hcol.
    repeat split. by constructor.
Qed.

Lemma parseTableConstraints_success_witness :
  let a := users_adapter "roles" "id" in
  let rs := users_constraint_rows "roles" "id" in
  ((∃ constraints, PostgresAdapter.parseTableConstraints a "users"
                     = Returned (constraints, None)) ↔
   Forall (λ r, no_null r ∧ ConstraintRow.constrainttype r ∈ switch_labels) rs) ∧
  ∀ constraints,
    PostgresAdapter.parseTableConstraints a "users" = Returned (constraints, None) →
    Constraint.Name <$> constraints = ConstraintRow.constraintname <$> rs ∧
    Some ∘ Constraint.Columnname <$> constraints = ConstraintRow.columnname <$> rs ∧
    Forall (λ c, Constraint.Tablename c = "users") constraints.
Proof.
  apply (parseTableConstraints_success (users_adapter "roles" "id") "users"
           (users_constraint_rows "roles" "id")).
  reflexivity.
Defined.

(** ** Enum extraction: grouping and failure *)

(** The enums returned have pairwise different names, and every delivered
    row is found again, as a value of the enum of its type name. *)
Theorem Enums_grouped `{GoRuntime} (a : PostgresAdapter.t) (enums : list Enum.t)
    (rs : list EnumRow.t) :
  DB.enum_rows (PostgresAdapter.db a) (PostgresAdapter.schemaname a)
    = Rows (Scanned <$> rs) →
  PostgresAdapter.Enums a = Returned (enums, None) →
  NoDup (Enum.Name <$> enums) ∧
  ∀ r, r ∈ rs →
    ∃ e, e ∈ enums ∧ Enum.Name e = EnumRow.name r ∧
         EnumValue.mk (EnumRow.label r) (EnumRow.order r) ∈ Enum.Values e.
Proof.
  unfold PostgresAdapter.Enums. intros -> Hrun.
  destruct (PostgresAdapter.Enums_rows (Scanned <$> rs) ∅) as [m|err] eqn:Hrows;
    [|done].
  injection Hrun as <-.
  destruct (Enums_rows_lookup _ _ _ Hrows) as (rs' & Heq & Hlk).
  apply Scanned_fmap_inj in Heq as <-.
  assert (Hkeyed : ∀ k e, m !! k = Some e → Enum.Name e = k).
  { intros k e. rewrite Hlk, lookup_empty. case_decide; [done|]. by intros [= <-]. }
  split.
  - rewrite (map_range_perm _ m).
    assert (Heq : Enum.Name <$> (map_to_list m).*2 = (map_to_list m).*1).
    { rewrite <- list_fmap_compose. apply list_fmap_ext.
      intros i [k e] Hi. simpl.
      apply Hkeyed, elem_of_map_to_list, list_elem_of_lookup. eauto. }
    rewrite Heq. apply NoDup_fst_map_to_list.
  - intros r Hr.
    assert (Hin : EnumValue.mk (EnumRow.label r) (EnumRow.order r)
                    ∈ delivered_values (EnumRow.name r) rs).
    { unfold delivered_values. apply list_elem_of_fmap. exists r. split; [done|].
      by apply list_elem_of_filter. }
    exists (Enum.mk (EnumRow.name r) (delivered_values (EnumRow.name r) rs)).
    split; [|done].
    rewrite (map_range_perm _ m). apply list_elem_of_fmap.
    exists (EnumRow.name r, Enum.mk (EnumRow.name r)
                              (delivered_values (EnumRow.name r) rs)).
    split; [done|]. apply elem_of_map_to_list.
    rewrite Hlk, lookup_empty. case_decide as Hnil; [|done].
    rewrite Hnil in Hin. by apply elem_of_nil in Hin.
Qed.

Lemma Enums_grouped_witness :
  let enums := [Enum.mk "status" [EnumValue.mk "done" 1; EnumValue.mk "pending" 0]] in
  NoDup (Enum.Name <$> enums) ∧
  ∀ r, r ∈ status_rows_done_first →
    ∃ e, e ∈ enums ∧ Enum.Name e = EnumRow.name r ∧
         EnumValue.mk (EnumRow.label r) (EnumRow.order r) ∈ Enum.Values e.
Proof.
  apply (@Enums_grouped reference_runtime
           (PostgresAdapter.mk (enum_db status_rows_done_first) "public")).
  - reflexivity.
  - vm_compute. reflexivity.
Defined.

Lemma Enums_rows_scan_error (good : list EnumRow.t) (err : error)
    (rest : list (scan EnumRow.t)) (m : gmap string Enum.t) :
  PostgresAdapter.Enums_rows ((Scanned <$> good) ++ ScanFailed err :: rest) m
    = inr err.
Proof.
  revert m. induction good as [|r good IH]; intros m; simpl; [done|].
  destruct (m !! EnumRow.name r); apply IH.
Qed.

Lemma Enums_rows_inr (rows : list (scan EnumRow.t)) (err : error)
    (m : gmap string Enum.t) :
  PostgresAdapter.Enums_rows rows m = inr err →
  ∃ good rest, rows = (Scanned <$> good) ++ ScanFailed err :: rest.
Proof.
  revert m. induction rows as [|[r|err'] rows IH]; intros m; simpl; [done| |].
  - intros Hrun.
    assert (∃ m1, PostgresAdapter.Enums_rows rows m1 = inr err) as [m1 Hm1].
    { destruct (m !! EnumRow.name r); eauto. }
    destruct (IH _ Hm1) as (good & rest & ->). by exists (r :: good), rest.
  - intros [= ->]. by exists [], rows.
Qed.

(** [Enums] never panics.  It returns an error exactly when the query fails
    or a row fails to decode; the error is the query's, or that of the first
    row that failed, and the enums collected so far are dropped. *)
Theorem Enums_error `{GoRuntime} (a : PostgresAdapter.t) :
  PostgresAdapter.Enums a ≠ Panicked ∧
  ∀ (enums : list Enum.t) (err : error),
    PostgresAdapter.Enums a = Returned (enums, Some err) ↔
    enums = [] ∧
    (DB.enum_rows (PostgresAdapter.db a) (PostgresAdapter.schemaname a)
       = QueryFailed err ∨
     ∃ good rest,
       DB.enum_rows (PostgresAdapter.db a) (PostgresAdapter.schemaname a)
         = Rows ((Scanned <$> good) ++ ScanFailed err :: rest)).
Proof.
  unfold PostgresAdapter.Enums.
  destruct (DB.enum_rows _ _) as [qerr|rows].
  - split; [done|]. intros enums err. split.
    + intros [= <- <-]. eauto.
    + intros [-> [[= ->]|(good & rest & [=])]]. done.
  - destruct (PostgresAdapter.Enums_rows rows ∅) as [m|rerr] eqn:Hrows.
    + split; [done|]. intros enums err. split; [done|].
      intros [_ [[=]|(good & rest & [= ->])]].
      by rewrite Enums_rows_scan_error in Hrows.
    + split; [done|]. intros enums err. split.
      * intros [= <- <-]. split; [done|]. right.
        destruct (Enums_rows_inr _ _ _ Hrows) as (good & rest & ->). eauto.
      * intros [-> [[=]|(good & rest & [= ->])]].
        rewrite Enums_rows_scan_error in Hrows. by injection Hrows as ->.
Qed.

Lemma Enums_error_witness :
  @PostgresAdapter.Enums reference_runtime
     (PostgresAdapter.mk
        (DB.mk (λ _, Rows ((Scanned <$> status_rows_done_first)
                             ++ ScanFailed bad_scan :: []))
               (λ _, Rows []) (λ _ _, Rows []) (λ _ _, Rows []))
        "public")
    = Returned ([], Some bad_scan).
Proof.
  apply (@Enums_error reference_runtime). split; [done|].
  right. by exists status_rows_done_first, [].
Defined.

(** ** Table assembly: failure, and what the flags say *)

(** [parseTable] returns a nil error only with a table, and exactly when both
    extractions return a nil error.  An error of the column extraction comes
    back as it is with a table that has only its name; an error of the
    constraint extraction comes back as it is with a table whose lookup
    mapping is filled and whose column sequence is still empty. *)
Theorem parseTable_errors `{GoRuntime} (a : PostgresAdapter.t) (tablename : string) :
  (∀ table, PostgresAdapter.parseTable a tablename = Returned (table, None) →
     is_Some table) ∧
  ((∃ table, PostgresAdapter.parseTable a tablename = Returned (table, None)) ↔
   (∃ cols, PostgresAdapter.parseTableColumns a tablename = Returned (cols, None)) ∧
   (∃ constraints, PostgresAdapter.parseTableConstraints a tablename
                     = Returned (constraints, None))) ∧
  (∀ cols err,
     PostgresAdapter.parseTableColumns a tablename = Returned (cols, Some err) →
     PostgresAdapter.parseTable a tablename
       = Returned (Some (Table.mk tablename [] ∅), Some err)) ∧
  (∀ cols constraints err,
     PostgresAdapter.parseTableColumns a tablename = Returned (cols, None) →
     PostgresAdapter.parseTableConstraints a tablename
       = Returned (constraints, Some err) →
     PostgresAdapter.parseTable a tablename
       = Returned (Some (Table.mk tablename []
                           (foldl (λ m col, <[Column.Name col := col]> m) ∅ cols)),
                   Some err)).
Proof.
  unfold PostgresAdapter.parseTable.
  destruct (PostgresAdapter.parseTableColumns a tablename)
    as [[cols [cerr|]]|]; simpl.
  - split; [done|]. split; [split; [by intros [? ?]|by intros [[? [=]] _]]|].
    split; [by intros ? ? [= _ ->]|done].
  - destruct (PostgresAdapter.parseTableConstraints a tablename)
      as [[constraints [kerr|]]|]; simpl.
    + split; [done|]. split; [split; [by intros [? ?]|by intros [_ [? [=]]]]|].
      split; [done|]. by intros ? ? ? [= <-] [= _ ->].
    + split; [intros ? [= <-]; eauto|]. split; [split; eauto|]. done.
    + split; [done|]. split; [split; [by intros [? ?]|by intros [_ [? [=]]]]|].
      done.
  - split; [done|]. split; [split; [by intros [? ?]|by intros [[? [=]] _]]|]. done.
Qed.

Definition failing_constraints_adapter : PostgresAdapter.t :=
  PostgresAdapter.mk
    (DB.mk (λ _, Rows []) (λ _, Rows [Scanned (Some "users")])
           (λ _ _, Rows (Scanned <$> users_column_rows))
           (λ _ _, QueryFailed connection_refused))
    "public".

Lemma parseTable_errors_witness :
  ∃ by_name : gmap string Column.t,
    @PostgresAdapter.parseTable reference_runtime failing_constraints_adapter "users"
      = Returned (Some (Table.mk "users" [] by_name), Some connection_refused) ∧
    dom by_name = {["id"; "email"; "role_id"]}.
Proof.
  destruct (@parseTable_errors reference_runtime failing_constraints_adapter "users")
    as (_ & _ & _ & Hconstraints).
  eexists. split.
  - eapply Hconstraints; vm_compute; reflexivity.
  - vm_compute. reflexivity.
Defined.

Section attach_sets.
Implicit Types (col : Column.t) (c : Constraint.t) (cs : list Constraint.t).

Lemma attach_IsPrimary col c :
  Column.IsPrimary (attach col c) =
  Column.IsPrimary col
  || bool_decide (Constraint.Type_ c = ConstraintTypePrimaryKey).
Proof.
  unfold attach. destruct (Column.Constraints col), (Constraint.Type_ c);
    simpl; by rewrite ?orb_false_r, ?orb_true_r.
Qed.

Lemma attach_IsUnique col c :
  Column.IsUnique (attach col c) =
  Column.IsUnique col || bool_decide (Constraint.Type_ c = ConstraintTypeUnique).
Proof.
  unfold attach. destruct (Column.Constraints col), (Constraint.Type_ c);
    simpl; by rewrite ?orb_false_r, ?orb_true_r.
Qed.

Lemma attach_IsReference col c :
  Column.IsReference (attach col c) =
  Column.IsReference col
  || bool_decide (Constraint.Type_ c = ConstraintTypeForeignKey).
Proof.
  unfold attach. destruct (Column.Constraints col), (Constraint.Type_ c);
    simpl; by rewrite ?orb_false_r, ?orb_true_r.
Qed.

(** For a flag [flag] raised by the constraints of type [ty]: after a run of
    attachments it is set exactly when it was set or such a constraint was
    among them. *)
Lemma attach_all_flag (flag : Column.t → bool) (ty : ConstraintType) :
  (∀ col c, flag (attach col c) = flag col || bool_decide (Constraint.Type_ c = ty)) →
  ∀ cs col,
    flag (foldl attach col cs) = true ↔
    flag col = true ∨ ∃ c, c ∈ cs ∧ Constraint.Type_ c = ty.
Proof.
  intros Hstep cs. induction cs as [|c cs IH]; intros col; simpl.
  - split; [by left|]. intros [?|(c & Hin & _)]; [done|by apply elem_of_nil in Hin].
  - rewrite IH, Hstep, orb_true_iff, bool_decide_eq_true. split.
    + intros [[?|Hty]|(c' & Hin & Hty)]; [by left| |].
      * right. exists c. split; [by left|done].
      * right. exists c'. split; [by right|done].
    + intros [?|(c' & [->|Hin]%elem_of_cons & Hty)]; [by left; left| |].
      * left. by right.
      * right. eauto.
Qed.
End attach_sets.

(** The entry under [k] of an assembled table, from the two extractions. *)
Lemma parseTable_entry `{GoRuntime} (a : PostgresAdapter.t) (tablename : string)
    (table : Table.t) (constraints : list Constraint.t) (k : string)
    (col : Column.t) :
  PostgresAdapter.parseTable a tablename = Returned (Some table, None) →
  PostgresAdapter.parseTableConstraints a tablename = Returned (constraints, None) →
  Table.ColumnsByName table !! k = Some col →
  ∃ col0,
    fresh col0 ∧ Column.Name col0 = k ∧
    col = foldl attach col0 (filter (λ c, Constraint.Columnname c = k) constraints).
Proof.
  intros (cols & constraints' & Hcols & Hcs & _ & Hmap & _)%parseTable_ok Hcs'.
  rewrite Hcs' in Hcs. injection Hcs as <-.
  rewrite Hmap, refrenceConstraints_lookup.
  destruct (foldl _ ∅ cols !! k) as [col0|] eqn:Hk; [|done].
  simpl. intros [= <-].
  apply ColumnsByName_lookup in Hk as [[Hin Hname]|Hk]; [|by rewrite lookup_empty in Hk].
  exists col0. split; [|done].
  apply parseTableColumns_fresh in Hcols. by eapply Forall_forall in Hcols.
Qed.

(** On every column of an assembled table, the attached constraints are
    exactly the extracted constraints that name the column as owner, in
    extraction order, and each derived flag is set if and only if one of
    them has the matching type. *)
Theorem parseTable_flags_complete `{GoRuntime} (a : PostgresAdapter.t)
    (tablename : string) (table : Table.t) (constraints : list Constraint.t)
    (col : Column.t) :
  PostgresAdapter.parseTable a tablename = Returned (Some table, None) →
  PostgresAdapter.parseTableConstraints a tablename = Returned (constraints, None) →
  col ∈ Table.Columns table →
  Column.Constraints col
    = filter (λ c, Constraint.Columnname c = Column.Name col) constraints ∧
  (Column.IsPrimary col = true ↔
     ∃ c, c ∈ Column.Constraints col ∧
          Constraint.Type_ c = ConstraintTypePrimaryKey) ∧
  (Column.IsUnique col = true ↔
     ∃ c, c ∈ Column.Constraints col ∧ Constraint.Type_ c = ConstraintTypeUnique) ∧
  (Column.IsReference col = true ↔
     ∃ c, c ∈ Column.Constraints col ∧
          Constraint.Type_ c = ConstraintTypeForeignKey).
Proof.
  intros Hrun Hcs Hin.
  apply (parseTable_Columns_elem _ _ _ _ Hrun) in Hin as [k Hk].
  destruct (parseTable_entry _ _ _ _ _ _ Hrun Hcs Hk)
    as (col0 & (Hnil & Hpk & Hun & Href) & <- & ->).
  rewrite attach_all_Constraints, attach_all_Name, Hnil. simpl.
  split; [done|].
  rewrite (attach_all_flag Column.IsPrimary _ attach_IsPrimary),
    (attach_all_flag Column.IsUnique _ attach_IsUnique),
    (attach_all_flag Column.IsReference _ attach_IsReference), Hpk, Hun, Href.
  repeat split; try (by intros [?|?]); by right.
Qed.

Lemma parseTable_flags_complete_witness :
  let col := role_id_column "roles" "id" in
  let constraints := [users_pkey;
                      Constraint.mk "users_email_key" ConstraintTypeUnique "users"
                        "email" "users" "email";
                      users_role_id_fkey "roles" "id"] in
  Column.Constraints col
    = filter (λ c, Constraint.Columnname c = Column.Name col) constraints ∧
  (Column.IsPrimary col = true ↔
     ∃ c, c ∈ Column.Constraints col ∧
          Constraint.Type_ c = ConstraintTypePrimaryKey) ∧
  (Column.IsUnique col = true ↔
     ∃ c, c ∈ Column.Constraints col ∧ Constraint.Type_ c = ConstraintTypeUnique) ∧
  (Column.IsReference col = true ↔
     ∃ c, c ∈ Column.Constraints col ∧
          Constraint.Type_ c = ConstraintTypeForeignKey).
Proof.
  apply (@parseTable_flags_complete reference_runtime (users_adapter "roles" "id")
           "users" (users_assembled "roles" "id")).
  - vm_compute. reflexivity.
  - vm_compute. reflexivity.
  - vm_compute. do 2 right. left.
Defined.

(** Reconciliation looks at the constraints column by column: two lists that
    agree, for every owning column, on that column's constraints and their
    order give the same table. *)
Theorem refrenceConstraints_per_column (table : Table.t)
    (cs1 cs2 : list Constraint.t) :
  (∀ k, filter (λ c, Constraint.Columnname c = k) cs1
        = filter (λ c, Constraint.Columnname c = k) cs2) →
  PostgresAdapter.refrenceConstraints table cs1
    = PostgresAdapter.refrenceConstraints table cs2.
Proof.
  intros Hsame. unfold PostgresAdapter.refrenceConstraints. do 2 f_equal.
  apply map_eq. intros k. by rewrite !refrenceConstraints_lookup, Hsame.
Qed.

Definition users_email_key : Constraint.t :=
  Constraint.mk "users_email_key" ConstraintTypeUnique "users" "email" "users"
    "email".

Lemma refrenceConstraints_per_column_witness :
  PostgresAdapter.refrenceConstraints users_table [users_pkey; users_email_key]
    = PostgresAdapter.refrenceConstraints users_table [users_email_key; users_pkey].
Proof.
  apply (refrenceConstraints_per_column users_table).
  intros k. rewrite !filter_cons, !filter_nil. simpl.
  destruct (decide ("id" = k)) as [<-|Hid]; [done|].
  by destruct (decide ("email" = k)).
Defined.

(** ** The table listing *)

Lemma Tables_rows_ok `{GoRuntime} (a : PostgresAdapter.t)
    (rows : list (scan (option string))) (acc tables : list Table.t) :
  PostgresAdapter.Tables_rows a rows acc = Returned (tables, None) →
  ∃ names tables',
    rows = (λ n, Scanned (Some n)) <$> names ∧ tables = acc ++ tables' ∧
    Forall2 (λ n table, PostgresAdapter.parseTable a n
                          = Returned (Some table, None)) names tables'.
Proof.
  revert acc. induction rows as [|[[n|]|err] rows IH]; intros acc Hrun;
    simpl in Hrun; try done.
  - injection Hrun as <-. exists [], []. by rewrite app_nil_r.
  - destruct (PostgresAdapter.parseTable a n) as [[[table|] [err|]]|] eqn:Hn;
      simpl in Hrun; try done.
    destruct (IH _ Hrun) as (names & tables' & -> & -> & Hall).
    exists (n :: names), (table :: tables'). rewrite <- app_assoc.
    split; [done|]. split; [done|]. by constructor.
Qed.

(** A successful [Tables] lists one table per row of the listing, in listing
    order, each as [parseTable] assembles it for that name and carrying that
    name. *)
Theorem Tables_success `{GoRuntime} (a : PostgresAdapter.t) (tables : list Table.t) :
  PostgresAdapter.Tables a = Returned (tables, None) →
  ∃ names : list string,
    DB.table_rows (PostgresAdapter.db a) (PostgresAdapter.schemaname a)
      = Rows ((λ n, Scanned (Some n)) <$> names) ∧
    Table.Name <$> tables = names ∧
    Forall2 (λ n table, PostgresAdapter.parseTable a n
                          = Returned (Some table, None)) names tables.
Proof.
  unfold PostgresAdapter.Tables.
  destruct (DB.table_rows _ _) as [err|rows]; [done|].
  intros (names & tables' & -> & -> & Hall)%Tables_rows_ok.
  exists names. split; [done|]. simpl. split; [|done].
  induction Hall as [|n table names tables' Hn _ IH]; [done|].
  rewrite fmap_cons, IH. f_equal.
  by apply parseTable_ok in Hn as (_ & _ & _ & _ & -> & _).
Qed.

Lemma Tables_success_witness :
  ∃ names : list string,
    DB.table_rows (users_db "roles" "id") "public"
      = Rows ((λ n, Scanned (Some n)) <$> names) ∧
    Table.Name <$> [users_assembled "roles" "id"] = names ∧
    Forall2 (λ n table,
        @PostgresAdapter.parseTable reference_runtime (users_adapter "roles" "id") n
          = Returned (Some table, None))
      names [users_assembled "roles" "id"].
Proof.
  apply (@Tables_success reference_runtime (users_adapter "roles" "id")).
  vm_compute. reflexivity.
Defined.

(** The first table whose assembly returns an error ends [Tables] with that
    error and no tables: the tables assembled before it are dropped, and the
    rows after it are not looked at. *)
Theorem Tables_first_error `{GoRuntime} (a : PostgresAdapter.t)
    (good : list string) (n : string) (rest : list (scan (option string)))
    (table : option Table.t) (err : error) :
  DB.table_rows (PostgresAdapter.db a) (PostgresAdapter.schemaname a)
    = Rows (((λ n, Scanned (Some n)) <$> good) ++ Scanned (Some n) :: rest) →
  Forall (λ n', ∃ table', PostgresAdapter.parseTable a n'
                            = Returned (Some table', None)) good →
  PostgresAdapter.parseTable a n = Returned (table, Some err) →
  PostgresAdapter.Tables a = Returned ([], Some err).
Proof.
  unfold PostgresAdapter.Tables. intros -> Hgood Hn.
  assert (G : ∀ acc, PostgresAdapter.Tables_rows a
                       (((λ n, Scanned (Some n)) <$> good)
                          ++ Scanned (Some n) :: rest) acc
                     = Returned ([], Some err)); [|apply G].
  induction Hgood as [|n' good [table' Hn'] _ IH]; intros acc; simpl.
  - by rewrite Hn.
  - rewrite Hn'. simpl. apply IH.
Qed.

Definition orders_fail_db : DB.t :=
  DB.mk (λ _, Rows [])
        (λ _, Rows [Scanned (Some "users"); Scanned (Some "orders"); Scanned None])
        (λ _ tablename,
           if decide (tablename = "users") then Rows (Scanned <$> users_column_rows)
           else QueryFailed connection_refused)
        (λ _ _, Rows (Scanned <$> users_constraint_rows "roles" "id")).

Lemma Tables_first_error_witness :
  @PostgresAdapter.Tables reference_runtime
     (PostgresAdapter.mk orders_fail_db "public")
    = Returned ([], Some connection_refused).
Proof.
  apply (@Tables_first_error reference_runtime
           (PostgresAdapter.mk orders_fail_db "public") ["users"] "orders"
           [Scanned None] (Some (Table.mk "orders" [] ∅)) connection_refused).
  - reflexivity.
  - repeat constructor. eexists. vm_compute. reflexivity.
  - vm_compute. reflexivity.
Defined.

(** ** Independence of the runtime *)

Lemma NoDup_fmap_elem_inj {A B : Type} (f : A → B) (l : list A) (x y : A) :
  NoDup (f <$> l) → x ∈ l → y ∈ l → f x = f y → x = y.
Proof.
  intros Hnd [i Hi]%list_elem_of_lookup [j Hj]%list_elem_of_lookup Hf.
  assert (i = j) as ->.
  { apply (NoDup_lookup (f <$> l) i j (f x) Hnd).
    - by rewrite list_lookup_fmap, Hi.
    - by rewrite list_lookup_fmap, Hj, Hf. }
  congruence.
Qed.

(** Where an entry of the reconciled lookup mapping comes from. *)
Lemma reconciled_entry_origin (cols : list Column.t)
    (constraints : list Constraint.t) (k : string) (col : Column.t) :
  foldl PostgresAdapter.refrenceConstraints_step
    (foldl (λ m col, <[Column.Name col := col]> m) ∅ cols) constraints !! k
    = Some col →
  ∃ col0, col0 ∈ cols ∧ Column.Name col0 = k ∧
          Column.OrdinalPosition col = Column.OrdinalPosition col0.
Proof.
  rewrite refrenceConstraints_lookup.
  destruct (foldl _ ∅ cols !! k) as [col0|] eqn:Hk; [|done].
  simpl. intros [= <-].
  apply ColumnsByName_lookup in Hk as [[Hin Hname]|Hk]; [|by rewrite lookup_empty in Hk].
  exists col0. by rewrite attach_all_OrdinalPosition.
Qed.

(** When the extracted columns have pairwise different ordinal positions,
    the outcome of [parseTable], column sequence included, is the same under
    every runtime: neither the order in which the map is walked nor the
    instability of the sort shows. *)
Theorem parseTable_runtime_independent (rt1 rt2 : GoRuntime)
    (a : PostgresAdapter.t) (tablename : string) (cols : list Column.t) :
  PostgresAdapter.parseTableColumns a tablename = Returned (cols, None) →
  NoDup (Column.OrdinalPosition <$> cols) →
  @PostgresAdapter.parseTable rt1 a tablename
    = @PostgresAdapter.parseTable rt2 a tablename.
Proof.
  intros Hcols Hnd. unfold PostgresAdapter.parseTable. rewrite Hcols. simpl.
  destruct (PostgresAdapter.parseTableConstraints a tablename)
    as [[constraints [err|]]|]; simpl; try done.
  set (m := foldl PostgresAdapter.refrenceConstraints_step _ constraints).
  do 3 f_equal. unfold Table.set_Columns. simpl. f_equal.
  assert (Hvalues : ∀ x y, x ∈ (map_to_list m).*2 → y ∈ (map_to_list m).*2 →
            Column.OrdinalPosition x = Column.OrdinalPosition y → x = y).
  { intros x y ([kx x'] & -> & Hx%elem_of_map_to_list)%list_elem_of_fmap
      ([ky y'] & -> & Hy%elem_of_map_to_list)%list_elem_of_fmap. simpl. intros Hord.
    destruct (reconciled_entry_origin _ _ _ _ Hx) as (x0 & Hx0 & <- & Hxo).
    destruct (reconciled_entry_origin _ _ _ _ Hy) as (y0 & Hy0 & <- & Hyo).
    assert (x0 = y0) as -> by (eapply NoDup_fmap_elem_inj; [done..|congruence]).
    congruence. }
  assert (Hsorted : ∀ rt : GoRuntime,
            StronglySorted by_OrdinalPosition
              (@sort_Slice rt _ PostgresAdapter.less_OrdinalPosition
                 ((@map_range rt _ m).*2))).
  { intros rt. apply Sorted_StronglySorted; [apply _|].
    eapply Sorted_weaken; [|apply sort_Slice_sorted, less_OrdinalPosition_swo].
    intros x y Hless%bool_decide_eq_false. unfold by_OrdinalPosition. lia. }
  assert (Hperm : ∀ rt : GoRuntime,
            @sort_Slice rt _ PostgresAdapter.less_OrdinalPosition
              ((@map_range rt _ m).*2) ≡ₚ (map_to_list m).*2).
  { intros rt. by rewrite sort_Slice_perm, (map_range_perm _ m). }
  apply (StronglySorted_unique_strong by_OrdinalPosition);
    [|apply Hsorted|apply Hsorted|by rewrite !Hperm].
  intros x y Hx Hy Hxy Hyx. rewrite Hperm in Hx, Hy.
  apply Hvalues; [done..|]. unfold by_OrdinalPosition in *. lia.
Qed.

Lemma parseTable_runtime_independent_witness :
  @PostgresAdapter.parseTable reference_runtime (users_adapter "roles" "id") "users"
    = @PostgresAdapter.parseTable reversed_runtime (users_adapter "roles" "id")
        "users".
Proof.
  apply (parseTable_runtime_independent reference_runtime reversed_runtime
           (users_adapter "roles" "id") "users" users_columns).
  - vm_compute. reflexivity.
  - vm_compute. repeat constructor; rewrite ?elem_of_cons, ?elem_of_nil; intuition lia.
Defined.

(** ** What reconciliation leaves of a column *)

(** The fields the extractor fills and the reconciler has no assignment
    for. *)
Definition same_extracted (c1 c2 : Column.t) : Prop :=
  Column.OrdinalPosition c1 = Column.OrdinalPosition c2 ∧
  Column.Name c1 = Column.Name c2 ∧
  Column.HasDefault c1 = Column.HasDefault c2 ∧
  Column.Default c1 = Column.Default c2 ∧
  Column.IsNullable c1 = Column.IsNullable c2 ∧
  Column.DatatypeRaw c1 = Column.DatatypeRaw c2 ∧
  Column.Datatype_ c1 = Column.Datatype_ c2 ∧
  Column.IsUserDefined c1 = Column.IsUserDefined c2 ∧
  Column.IsArray c1 = Column.IsArray c2 ∧
  Column.CharacterMaxLength c1 = Column.CharacterMaxLength c2 ∧
  Column.UserDefinedType_ c1 = Column.UserDefinedType_ c2 ∧
  Column.Comments c1 = Column.Comments c2.

Lemma attach_same_extracted (col : Column.t) (c : Constraint.t) :
  same_extracted (attach col c) col.
Proof.
  unfold attach, same_extracted.
  by destruct (Column.Constraints col), (Constraint.Type_ c).
Qed.

Lemma attach_all_same_extracted (cs : list Constraint.t) (col : Column.t) :
  same_extracted (foldl attach col cs) col.
Proof.
  revert col. induction cs as [|c cs IH]; intros col; simpl.
  - unfold same_extracted. tauto.
  - pose proof (IH (attach col c)) as H1.
    pose proof (attach_same_extracted col c) as H2.
    unfold same_extracted in *. intuition congruence.
Qed.

(** Reconciliation keeps every column that is in the lookup mapping under its
    key, adds to its constraints exactly the constraints that name the key
    as owner, in order, and changes none of the extracted fields; a derived
    flag that was set stays set. *)
Theorem refrenceConstraints_fields (table : Table.t)
    (constraints : list Constraint.t) (k : string) (col0 : Column.t) :
  Table.ColumnsByName table !! k = Some col0 →
  ∃ col : Column.t,
    Table.ColumnsByName (PostgresAdapter.refrenceConstraints table constraints).1
      !! k = Some col ∧
    Column.Constraints col
      = Column.Constraints col0
        ++ filter (λ c, Constraint.Columnname c = k) constraints ∧
    same_extracted col col0 ∧
    (Column.IsPrimary col0 = true → Column.IsPrimary col = true) ∧
    (Column.IsUnique col0 = true → Column.IsUnique col = true) ∧
    (Column.IsReference col0 = true → Column.IsReference col = true).
Proof.
  intros Hk. simpl. rewrite refrenceConstraints_lookup, Hk. simpl.
  eexists. split; [reflexivity|].
  split; [apply attach_all_Constraints|].
  split; [apply attach_all_same_extracted|].
  rewrite (attach_all_flag Column.IsPrimary _ attach_IsPrimary),
    (attach_all_flag Column.IsUnique _ attach_IsUnique),
    (attach_all_flag Column.IsReference _ attach_IsReference).
  tauto.
Qed.

Lemma refrenceConstraints_fields_witness :
  ∃ col : Column.t,
    Table.ColumnsByName
      (PostgresAdapter.refrenceConstraints users_table
         [users_pkey; ghost_unique; users_email_key]).1 !! "email" = Some col ∧
    Column.Constraints col
      = Column.Constraints email_column
        ++ filter (λ c, Constraint.Columnname c = "email")
             [users_pkey; ghost_unique; users_email_key] ∧
    same_extracted col email_column ∧
    (Column.IsPrimary email_column = true → Column.IsPrimary col = true) ∧
    (Column.IsUnique email_column = true → Column.IsUnique col = true) ∧
    (Column.IsReference email_column = true → Column.IsReference col = true).
Proof.
  apply (refrenceConstraints_fields users_table
           [users_pkey; ghost_unique; users_email_key] "email" email_column).
  vm_compute. reflexivity.
Defined.

(** ** The parse under different runtimes *)

(** The sorted column sequence of a reconciled lookup mapping whose columns
    have pairwise different ordinal positions does not depend on the
    runtime. *)
Lemma sorted_columns_any_runtime (rt1 rt2 : GoRuntime) (cols : list Column.t)
    (constraints : list Constraint.t) :
  NoDup (Column.OrdinalPosition <$> cols) →
  let m := foldl PostgresAdapter.refrenceConstraints_step
             (foldl (λ m col, <[Column.Name col := col]> m) ∅ cols) constraints in
  @sort_Slice rt1 _ PostgresAdapter.less_OrdinalPosition ((@map_range rt1 _ m).*2)
  = @sort_Slice rt2 _ PostgresAdapter.less_OrdinalPosition ((@map_range rt2 _ m).*2).
Proof.
  intros Hnd m.
  assert (Hperm : ∀ rt : GoRuntime,
            @sort_Slice rt _ PostgresAdapter.less_OrdinalPosition
              ((@map_range rt _ m).*2) ≡ₚ (map_to_list m).*2).
  { intros rt. by rewrite sort_Slice_perm, (map_range_perm _ m). }
  apply (StronglySorted_unique_strong by_OrdinalPosition); [| | |by rewrite !Hperm].
  - intros x y Hx Hy Hxy Hyx. rewrite Hperm in Hx, Hy.
    apply list_elem_of_fmap in Hx as ([kx x'] & -> & Hx%elem_of_map_to_list).
    apply list_elem_of_fmap in Hy as ([ky y'] & -> & Hy%elem_of_map_to_list).
    simpl in *.
    destruct (reconciled_entry_origin _ _ _ _ Hx) as (x0 & Hx0 & <- & Hxo).
    destruct (reconciled_entry_origin _ _ _ _ Hy) as (y0 & Hy0 & <- & Hyo).
    assert (x0 = y0) as ->.
    { eapply NoDup_fmap_elem_inj; [done..|].
      unfold by_OrdinalPosition in *. lia. }
    congruence.
  - apply Sorted_StronglySorted; [apply _|].
    eapply Sorted_weaken; [|apply sort_Slice_sorted, less_OrdinalPosition_swo].
    intros x y Hless%bool_decide_eq_false. unfold by_OrdinalPosition. lia.
  - apply Sorted_StronglySorted; [apply _|].
    eapply Sorted_weaken; [|apply sort_Slice_sorted, less_OrdinalPosition_swo].
    intros x y Hless%bool_decide_eq_false. unfold by_OrdinalPosition. lia.
Qed.

(** The hypothesis on the catalog: no table's extracted columns repeat an
    ordinal position. *)
Definition distinct_positions (a : PostgresAdapter.t) : Prop :=
  ∀ (tablename : string) (cols : list Column.t),
    PostgresAdapter.parseTableColumns a tablename = Returned (cols, None) →
    NoDup (Column.OrdinalPosition <$> cols).

Lemma parseTable_any_runtime (rt1 rt2 : GoRuntime) (a : PostgresAdapter.t)
    (tablename : string) :
  distinct_positions a →
  @PostgresAdapter.parseTable rt1 a tablename
    = @PostgresAdapter.parseTable rt2 a tablename.
Proof.
  intros Hdistinct. unfold PostgresAdapter.parseTable.
  destruct (PostgresAdapter.parseTableColumns a tablename)
    as [[cols [err|]]|] eqn:Hcols; simpl; try done.
  destruct (PostgresAdapter.parseTableConstraints a tablename)
    as [[constraints [err|]]|]; simpl; try done.
  do 3 f_equal. unfold Table.set_Columns. simpl. f_equal.
  by apply sorted_columns_any_runtime, (Hdistinct tablename).
Qed.

Lemma Tables_rows_any_runtime (rt1 rt2 : GoRuntime) (a : PostgresAdapter.t)
    (rows : list (scan (option string))) (acc : list Table.t) :
  distinct_positions a →
  @PostgresAdapter.Tables_rows rt1 a rows acc
    = @PostgresAdapter.Tables_rows rt2 a rows acc.
Proof.
  intros Hdistinct. revert acc.
  induction rows as [|[[n|]|err] rows IH]; intros acc; simpl; try done.
  rewrite (parseTable_any_runtime rt1 rt2 a n Hdistinct).
  destruct (@PostgresAdapter.parseTable rt2 a n) as [[table [err|]]|]; simpl;
    try done.
  destruct table as [table|]; simpl; [apply IH|done].
Qed.

(** For the same catalog answers, and with no table repeating an ordinal
    position, a parse does not depend on how the runtime walks maps or
    breaks ties in the sort, except for the order of the enum list: under any
    two runtimes the outcome (nil, the error, or the panic) is the same, the
    adapter is left as it was, the tables are the same and the enums are the
    same up to their order. *)
Theorem Parse_any_runtime (rt1 rt2 : GoRuntime) (s : Schema.t)
    (a : PostgresAdapter.t) :
  distinct_positions a →
  let parse1 := @Schema.Parse PostgresAdapter.t (@PostgresAdapter_Adapter rt1) s a in
  let parse2 := @Schema.Parse PostgresAdapter.t (@PostgresAdapter_Adapter rt2) s a in
  parse1.2 = parse2.2 ∧
  parse1.1.1 = a ∧ parse2.1.1 = a ∧
  Schema.Tables parse1.1.2 = Schema.Tables parse2.1.2 ∧
  Schema.Enums parse1.1.2 ≡ₚ Schema.Enums parse2.1.2.
Proof.
  intros Hdistinct. unfold Schema.Parse, Schema.ParseContext. simpl.
  assert (Htables : @PostgresAdapter.Tables rt1 a = @PostgresAdapter.Tables rt2 a).
  { unfold PostgresAdapter.Tables.
    destruct (DB.table_rows _ _) as [err|rows]; [done|].
    by apply Tables_rows_any_runtime. }
  rewrite Htables.
  destruct (@PostgresAdapter.Tables rt2 a) as [[tables [terr|]]|]; simpl;
    [done| |done].
  unfold PostgresAdapter.Enums.
  destruct (DB.enum_rows _ _) as [err|rows]; simpl; [done|].
  destruct (PostgresAdapter.Enums_rows rows ∅) as [m|err]; simpl; [|done].
  repeat split.
  by rewrite (@map_range_perm rt1 _ m), (@map_range_perm rt2 _ m).
Qed.

(** Two enumerated types beside the [users] table. *)
Definition two_enums_db : DB.t :=
  DB.mk (λ _, Rows (Scanned <$> [EnumRow.mk "status" 0 "pending";
                                 EnumRow.mk "mood" 0 "sad";
                                 EnumRow.mk "status" 1 "done"]))
        (λ _, Rows [Scanned (Some "users")])
        (λ _ _, Rows (Scanned <$> users_column_rows))
        (λ _ _, Rows (Scanned <$> users_constraint_rows "roles" "id")).

Lemma Parse_any_runtime_witness :
  let a := PostgresAdapter.mk two_enums_db "public" in
  let parse1 := @Schema.Parse PostgresAdapter.t
                  (@PostgresAdapter_Adapter reference_runtime) NewSchema a in
  let parse2 := @Schema.Parse PostgresAdapter.t
                  (@PostgresAdapter_Adapter reversed_runtime) NewSchema a in
  parse1.2 = parse2.2 ∧
  parse1.1.1 = a ∧ parse2.1.1 = a ∧
  Schema.Tables parse1.1.2 = Schema.Tables parse2.1.2 ∧
  Schema.Enums parse1.1.2 ≡ₚ Schema.Enums parse2.1.2.
Proof.
  apply (Parse_any_runtime reference_runtime reversed_runtime NewSchema
           (PostgresAdapter.mk two_enums_db "public")).
  intros tablename cols. vm_compute. intros [= <-].
  repeat constructor; rewrite ?elem_of_cons, ?elem_of_nil; intuition lia.
Defined.

(** The order of the enum list does depend on the runtime. *)
Example Enums_order_depends_on_runtime :
  Enum.Name <$> Schema.Enums
    (@Schema.Parse PostgresAdapter.t (@PostgresAdapter_Adapter reference_runtime)
       NewSchema (PostgresAdapter.mk two_enums_db "public")).1.2
  ≠ Enum.Name <$> Schema.Enums
      (@Schema.Parse PostgresAdapter.t (@PostgresAdapter_Adapter reversed_runtime)
         NewSchema (PostgresAdapter.mk two_enums_db "public")).1.2.
Proof. vm_compute. discriminate. Qed.
